(** * gobag: the tokenizer [Fields] and the unquoter [UnquoteString]

    A shallow embedding of [gobag.go] (package gobag) and the properties
    of its two string scanners.

    Data model.  The loops of the two scanners are embedded on the
    sequence of runes that [for _, r := range s] yields ([gostring]), with
    [strings.Builder] as the sequence of runes written to it by
    [WriteRune].  A Go string itself is a sequence of bytes
    ([bytestring]): [decode] gives the runes that [range] yields from it,
    an invalid byte being read as U+FFFD, and [encode] the bytes of a
    builder.  Module [Go] holds the functions from bytes to bytes, and
    what is said of strings as such is said there.  A rune is an [int32],
    held in [Z].  The
    paren counter is a Go [int] (64 bits), held in [Z] with its wrap-around
    written out.  A slice result is an [option]: [None] is Go's [nil]
    slice, [Some []] the empty non-nil slice.  An [error] result is an
    [option] as well, [None] being [nil]. *)

From Stdlib Require Import ZArith List Bool Lia String Ascii.
Import ListNotations.
Local Open Scope Z_scope.

(** ** Runes, strings and errors *)

Definition rune := Z.
Definition gostring := list rune.

Definition backslash : rune := 92.   (* U+005C, the escape character *)
Definition dquote    : rune := 34.   (* U+0022, the double quote *)
Definition squote    : rune := 39.   (* U+0027, the single quote *)
Definition lparen    : rune := 40.   (* U+0028, opening parenthesis *)
Definition rparen    : rune := 41.   (* U+0029, closing parenthesis *)
Definition comma     : rune := 44.   (* U+002C *)

(** The runes of an ASCII literal. *)
Fixpoint runes (s : string) : gostring :=
  match s with
  | EmptyString => []
  | String c rest => Z.of_N (N_of_ascii c) :: runes rest
  end.

(** [errors.New]: an error value is its message. *)
Inductive error : Type := errors_New (msg : string).

Definition Error (e : error) : string :=
  match e with errors_New msg => msg end.

(** Go's [int] arithmetic on the paren counter. *)
Definition wrap_int (x : Z) : Z := (x + 2 ^ 63) mod 2 ^ 64 - 2 ^ 63.

(** [strings.Join]. *)
Fixpoint Join (elems : list gostring) (sep : gostring) : gostring :=
  match elems with
  | [] => []
  | [e] => e
  | e :: rest => e ++ sep ++ Join rest sep
  end.

(** ** Strings as bytes *)

(** A Go string is a sequence of bytes.  [EncodeRune] is what
    [strings.Builder.WriteRune] appends (package [unicode/utf8]): the
    UTF-8 encoding of the rune, and that of U+FFFD for a surrogate or a
    value out of range.  The arithmetic is that of the bit operations of
    the library: [r / 64] is [r >> 6], [r mod 64] is [r & 0x3F]. *)
Definition bytestring := list Z.

Definition RuneError : rune := 65533.

(** A Unicode scalar value: a code point that is not a surrogate. *)
Definition valid_rune (r : rune) : bool :=
  ((0 <=? r) && (r <? 55296)) || ((57343 <? r) && (r <=? 1114111)).

Definition EncodeRune (r : rune) : bytestring :=
  if negb (valid_rune r) then [239; 191; 189]
  else if r <? 128 then [r]
  else if r <? 2048 then [192 + r / 64; 128 + r mod 64]
  else if r <? 65536 then
    [224 + r / 4096; 128 + (r / 64) mod 64; 128 + r mod 64]
  else
    [240 + r / 262144; 128 + (r / 4096) mod 64;
     128 + (r / 64) mod 64; 128 + r mod 64].

(** The bytes of a builder to which the runes [rs] were written. *)
Definition encode (rs : gostring) : bytestring := flat_map EncodeRune rs.

(** A continuation byte, [10xxxxxx]. *)
Definition cont (b : Z) : bool := (128 <=? b) && (b <=? 191).

(** The lead byte of a two-byte encoding. *)
Definition lead2 (b0 : Z) : bool := (194 <=? b0) && (b0 <=? 223).

(** The first two bytes of a three-byte encoding: no overlong form and
    no surrogate. *)
Definition lead3 (b0 b1 : Z) : bool :=
  ((b0 =? 224) && (160 <=? b1) && (b1 <=? 191))
  || ((225 <=? b0) && (b0 <=? 236) && cont b1)
  || ((b0 =? 237) && (128 <=? b1) && (b1 <=? 159))
  || ((238 <=? b0) && (b0 <=? 239) && cont b1).

(** The first two bytes of a four-byte encoding: no overlong form and
    nothing above U+10FFFF. *)
Definition lead4 (b0 b1 : Z) : bool :=
  ((b0 =? 240) && (144 <=? b1) && (b1 <=? 191))
  || ((241 <=? b0) && (b0 <=? 243) && cont b1)
  || ((b0 =? 244) && (128 <=? b1) && (b1 <=? 143)).

(** The runes that [for _, r := range s] yields: each well-formed
    encoding gives its rune, and every byte that starts none gives
    U+FFFD and is skipped alone. *)
Fixpoint decode (s : bytestring) : gostring :=
  match s with
  | [] => []
  | b0 :: t0 =>
      if b0 <? 128 then b0 :: decode t0
      else
        match t0 with
        | [] => RuneError :: decode t0
        | b1 :: t1 =>
            if lead2 b0 && cont b1
            then ((b0 - 192) * 64 + (b1 - 128)) :: decode t1
            else
              match t1 with
              | [] => RuneError :: decode t0
              | b2 :: t2 =>
                  if lead3 b0 b1 && cont b2
                  then ((b0 - 224) * 4096 + (b1 - 128) * 64 + (b2 - 128))
                       :: decode t2
                  else
                    match t2 with
                    | [] => RuneError :: decode t0
                    | b3 :: t3 =>
                        if lead4 b0 b1 && cont b2 && cont b3
                        then ((b0 - 240) * 262144 + (b1 - 128) * 4096
                              + (b2 - 128) * 64 + (b3 - 128))
                             :: decode t3
                        else RuneError :: decode t0
                    end
              end
        end
  end.

(** [utf8.ValidString]: the string is the encoding of a sequence of
    Unicode scalar values. *)
Definition valid_utf8 (s : bytestring) : Prop :=
  exists rs, forallb valid_rune rs = true /\ s = encode rs.

(** [strings.Join] on byte strings. *)
Fixpoint JoinBytes (elems : list bytestring) (sep : bytestring)
  : bytestring :=
  match elems with
  | [] => []
  | [e] => e
  | e :: rest => e ++ sep ++ JoinBytes rest sep
  end.

(** The bytes of an ASCII literal: one byte per character, equal to its
    rune. *)
Definition bytes (s : string) : bytestring := runes s.

(** ** Fields *)

(** The local variables of [Fields]. *)
Record scan : Type := mkScan {
  sb        : gostring;        (* var sb strings.Builder *)
  fields    : list gostring;   (* fields := make([]string, 0) *)
  balance   : Z;               (* var balance int *)
  inSingle  : bool;
  inDouble  : bool;
  isEscaped : bool
}.

Definition scan_init : scan := mkScan [] [] 0 false false false.

Definition WriteRune (r : rune) (st : scan) : scan :=
  mkScan (sb st ++ [r]) (fields st) (balance st)
         (inSingle st) (inDouble st) (isEscaped st).

Definition set_isEscaped (b : bool) (st : scan) : scan :=
  mkScan (sb st) (fields st) (balance st) (inSingle st) (inDouble st) b.

Definition set_inSingle (b : bool) (st : scan) : scan :=
  mkScan (sb st) (fields st) (balance st) b (inDouble st) (isEscaped st).

Definition set_inDouble (b : bool) (st : scan) : scan :=
  mkScan (sb st) (fields st) (balance st) (inSingle st) b (isEscaped st).

Definition set_balance (n : Z) (st : scan) : scan :=
  mkScan (sb st) (fields st) n (inSingle st) (inDouble st) (isEscaped st).

(** [fields = append(fields, sb.String()); sb.Reset()] *)
Definition flush (st : scan) : scan :=
  mkScan [] (fields st ++ [sb st]) (balance st)
         (inSingle st) (inDouble st) (isEscaped st).

(** The condition under which [case sep] closes the current field. *)
Definition splits (st : scan) : bool :=
  (balance st =? 0) && negb (inSingle st) && negb (inDouble st).

(** One iteration of the loop of [Fields].  The cases of the [switch] are
    tried in the order they are written, so a separator that is also a
    quote, a paren or the backslash is handled by the first case that it
    matches. *)
Definition step (sep : rune) (st : scan) (r : rune) : scan :=
  if isEscaped st then
    set_isEscaped false (WriteRune r st)
  else if r =? backslash then
    set_isEscaped true st
  else if r =? sep then
    if splits st then flush st else WriteRune r st
  else if r =? dquote then
    WriteRune r
      (if negb (inSingle st) then set_inDouble (negb (inDouble st)) st else st)
  else if r =? squote then
    WriteRune r
      (if negb (inDouble st) then set_inSingle (negb (inSingle st)) st else st)
  else if r =? lparen then
    WriteRune r
      (if negb (inSingle st) && negb (inDouble st)
       then set_balance (wrap_int (balance st + 1)) st else st)
  else if r =? rparen then
    WriteRune r
      (if negb (inSingle st) && negb (inDouble st)
       then set_balance (wrap_int (balance st - 1)) st else st)
  else
    WriteRune r st.

(** The loop [for _, r := range s], from an arbitrary state. *)
Definition scan_from (sep : rune) (st : scan) (s : gostring) : scan :=
  fold_left (step sep) s st.

Definition run (sep : rune) (s : gostring) : scan :=
  scan_from sep scan_init s.

Definition fields_result : Type := option (list gostring) * option error.

Definition err_dangling : error :=
  errors_New "dangling escape character at end of string".
Definition err_too_many_closing : error :=
  errors_New "too many closing parentheses".
Definition err_unbalanced_parens : error :=
  errors_New "unbalanced parentheses in string".
Definition err_single_quote : error :=
  errors_New "unbalanced single quote in string".
Definition err_double_quote : error :=
  errors_New "unbalanced double quote in string".

(** The code after the loop.  [sb.Len() > 0] holds exactly when a rune
    has been written since the last reset. *)
Definition finish (st : scan) : fields_result :=
  if isEscaped st then (None, Some err_dangling)
  else if balance st <? 0 then (None, Some err_too_many_closing)
  else if negb (balance st =? 0) then (None, Some err_unbalanced_parens)
  else if inSingle st then (None, Some err_single_quote)
  else if inDouble st then (None, Some err_double_quote)
  else
    (Some (match sb st with
           | [] => fields st
           | _ :: _ => fields st ++ [sb st]
           end), None).

Definition Fields (s : gostring) (sep : rune) : fields_result :=
  finish (run sep s).

(** ** UnquoteString and UnquoteStrings *)

(** The local variables of [UnquoteString]. *)
Record unq : Type := mkUnq {
  out     : gostring;   (* var sb strings.Builder *)
  inQuote : bool;
  escape  : bool
}.

Definition unq_init : unq := mkUnq [] false false.

Definition err_escape_outside : error :=
  errors_New "escape character found outside a quote".
Definition err_unterminated : error :=
  errors_New "unterminated double quote".

(** A computation that may return early with an error. *)
Definition fallible (A : Type) : Type := (error + A)%type.

Definition ok {A : Type} (a : A) : fallible A := inr a.
Definition fail {A : Type} (e : error) : fallible A := inl e.

Definition bind {A B : Type} (m : fallible A) (k : A -> fallible B)
  : fallible B :=
  match m with
  | inl e => inl e
  | inr a => k a
  end.

Notation "x <- m ;; k" := (bind m (fun x => k))
  (at level 61, m at next level, right associativity).

(** One iteration of the loop of [UnquoteString]. *)
Definition ustep (st : unq) (r : rune) : fallible unq :=
  if escape st then
    if (r =? dquote) || (r =? backslash)
    then ok (mkUnq (out st ++ [r]) (inQuote st) false)
    else ok (mkUnq ((out st ++ [backslash]) ++ [r]) (inQuote st) false)
  else if r =? backslash then
    if negb (inQuote st) then fail err_escape_outside
    else ok (mkUnq (out st) (inQuote st) true)
  else if r =? dquote then
    ok (mkUnq (out st) (negb (inQuote st)) (escape st))
  else
    ok (mkUnq (out st ++ [r]) (inQuote st) (escape st)).

Fixpoint uscan_from (st : unq) (s : gostring) : fallible unq :=
  match s with
  | [] => ok st
  | r :: rest => st' <- ustep st r ;; uscan_from st' rest
  end.

Definition urun (s : gostring) : fallible unq := uscan_from unq_init s.

Definition UnquoteString (s : gostring) : gostring * option error :=
  match urun s with
  | inl e => ([], Some e)
  | inr st =>
      if escape st then ([], Some err_dangling)
      else if inQuote st then ([], Some err_unterminated)
      else (out st, None)
  end.

(** The loop of [UnquoteStrings], with [unquoted] as accumulator. *)
Fixpoint UnquoteStrings_from (unquoted elems : list gostring)
  : fields_result :=
  match elems with
  | [] => (Some unquoted, None)
  | elem :: rest =>
      match UnquoteString elem with
      | (_, Some err) => (None, Some err)
      | (s, None) => UnquoteStrings_from (unquoted ++ [s]) rest
      end
  end.

Definition UnquoteStrings (elems : list gostring) : fields_result :=
  UnquoteStrings_from [] elems.

(** ** The functions on Go strings *)

(** The functions as their callers see them: the loops above run on the
    runes that [range] yields from the argument, and each builder is
    returned as its bytes. *)
Module Go.

Definition Fields (s : bytestring) (sep : rune)
  : option (list bytestring) * option error :=
  match Fields (decode s) sep with
  | (fs, err) => (option_map (map encode) fs, err)
  end.

Definition UnquoteString (s : bytestring) : bytestring * option error :=
  match UnquoteString (decode s) with
  | (o, err) => (encode o, err)
  end.

Fixpoint UnquoteStrings_from (unquoted elems : list bytestring)
  : option (list bytestring) * option error :=
  match elems with
  | [] => (Some unquoted, None)
  | elem :: rest =>
      match UnquoteString elem with
      | (_, Some err) => (None, Some err)
      | (s, None) => UnquoteStrings_from (unquoted ++ [s]) rest
      end
  end.

Definition UnquoteStrings (elems : list bytestring)
  : option (list bytestring) * option error :=
  UnquoteStrings_from [] elems.

End Go.

(** ** The generic helpers: Ternary, Deduplicate, In, Keys *)

(** Go's [comparable] constraint: [equal] is [==] on [T], for the types
    on which [==] returns (an interface holding a slice, a map or a
    function makes [==] and the hashing of a map key panic).  Nothing is
    assumed of [==]: on a float type it is not reflexive, NaN differing
    from itself, and a map never finds a NaN key again. *)
Class Comparable (T : Type) : Type := mkComparable {
  equal : T -> T -> bool
}.

#[export] Instance Comparable_rune : Comparable rune :=
  mkComparable rune Z.eqb.

(** A float type, as far as [==] goes: numbers and NaN. *)
Inductive float : Type := NaN | Num (x : Z).

#[export] Instance Comparable_float : Comparable float :=
  mkComparable float
    (fun a b =>
       match a, b with
       | Num x, Num y => x =? y
       | _, _ => false
       end).

(** [==] on [T] is equality: so it is on integers, runes, booleans and
    strings, and so it is not on a float type. *)
Definition equality {T : Type} `{Comparable T} : Prop :=
  forall x y : T, equal x y = true <-> x = y.

(** A slice argument or result: [None] is the nil slice.  [len] and
    [range] do not tell nil from empty. *)
Definition slice (T : Type) : Type := option (list T).

Definition elems {T : Type} (s : slice T) : list T :=
  match s with
  | None => []
  | Some l => l
  end.



Module Bag.

Definition Ternary {T : Type} (cond : bool) (v1 v2 : T) : T :=
  if cond then v1 else v2.

(** The local variables of [Deduplicate]: [seen] is a [map[T]struct{}],
    held as its membership test. *)
Record dedup (T : Type) : Type := mkDedup {
  seen   : T -> bool;
  result : list T
}.

Arguments mkDedup {T} _ _.
Arguments seen {T} _ _.
Arguments result {T} _.

(** [seen[e] = struct{}{}] *)
Definition mark {T : Type} `{Comparable T} (sn : T -> bool) (e : T)
  : T -> bool :=
  fun x => if equal x e then true else sn x.

(** One iteration of the loop of [Deduplicate]. *)
Definition dedup_step {T : Type} `{Comparable T} (st : dedup T) (e : T)
  : dedup T :=
  if negb (seen st e)
  then mkDedup (mark (seen st) e) (result st ++ [e])
  else st.

Definition dedup_from {T : Type} `{Comparable T} (st : dedup T)
    (l : list T) : dedup T :=
  fold_left dedup_step l st.

Definition Deduplicate {T : Type} `{Comparable T} (s : slice T) : slice T :=
  match elems s with
  | [] => Some []
  | _ :: _ => Some (result (dedup_from (mkDedup (fun _ => false) []) (elems s)))
  end.

(** The loop of [In] returns at the first element equal to [e]. *)
Fixpoint In {T : Type} `{Comparable T} (s : list T) (e : T) : bool :=
  match s with
  | [] => false
  | element :: rest => if equal element e then true else In rest e
  end.


End Bag.

(** ** Specification-side definitions *)

(** The end-of-scan checks in the order the specification lists them, each
    with the error it raises. *)
Definition violations (st : scan) : list (bool * error) :=
  [ (isEscaped st,    err_dangling);
    (balance st <? 0, err_too_many_closing);
    (0 <? balance st, err_unbalanced_parens);
    (inSingle st,     err_single_quote);
    (inDouble st,     err_double_quote) ].

Definition first_violation (st : scan) : option error :=
  option_map snd (find fst (violations st)).

(** Escapes, parentheses and quotes are balanced in [s], as the scan
    counts them. *)
Definition balanced (sep : rune) (s : gostring) : Prop :=
  isEscaped (run sep s) = false /\ balance (run sep s) = 0 /\
  inSingle (run sep s) = false /\ inDouble (run sep s) = false.

(** [s] with every escaping backslash removed: a backslash that is not
    itself escaped is dropped and the rune after it is kept. *)
Fixpoint unescape_from (esc : bool) (s : gostring) : gostring :=
  match s with
  | [] => []
  | r :: rest =>
      if esc then r :: unescape_from false rest
      else if r =? backslash then unescape_from true rest
      else r :: unescape_from false rest
  end.

Definition unescape (s : gostring) : gostring := unescape_from false s.

(** Joining [fs] with the separator gives [s], up to the delimiter that
    ended the last field. *)
Definition join_recovers (s : gostring) (sep : rune) (fs : list gostring)
  : Prop :=
  Join fs [sep] = s \/ Join fs [sep] ++ [sep] = s.

(** The text scanned so far with the delimiters put back: every closed
    field followed by the separator, then the open field. *)
Definition flat (sep : rune) (st : scan) : gostring :=
  List.concat (map (fun f => f ++ [sep]) (fields st)) ++ sb st.

(** A separator read in state [st] is unsuppressed: it is not escaped, not
    shadowed by the escape case of the switch, and the counter and the
    quote flags let it close the field. *)
Definition delimits (sep : rune) (st : scan) : Prop :=
  sep <> backslash /\ isEscaped st = false /\ splits st = true.

(** The escape flag is only ever set inside a quote. *)
Definition escape_in_quote (st : unq) : Prop :=
  escape st = true -> inQuote st = true.

(** A state between two fields or inside an unquoted, unparenthesised
    field: nothing is pending. *)
Definition neutral (b : gostring) (f : list gostring) : scan :=
  mkScan b f 0 false false false.

(** [st] with [o] written before its output. *)
Definition prepend (o : gostring) (st : unq) : unq :=
  mkUnq (o ++ out st) (inQuote st) (escape st).

(** The elements of [l] in the order of their first occurrence, each
    once. *)
Fixpoint uniq {T : Type} `{Comparable T} (l : list T) : list T :=
  match l with
  | [] => []
  | a :: rest => a :: filter (fun x => negb (equal x a)) (uniq rest)
  end.

(** Where a text stands with respect to quotes. *)
Inductive quoting : Type := Unquoted | SingleQuoted | DoubleQuoted.

(** One rune of a text read for its nesting: a backslash takes the next
    rune out of consideration; a quote opens or closes a quotation, the
    other kind of quote being an ordinary rune inside it; outside a
    quotation an opening parenthesis goes one level deeper and a closing
    one comes back one level, and there is no next state when there is no
    level to come back from. *)
Definition nest_step (depth : nat) (q : quoting) (esc : bool) (r : rune)
  : option (nat * quoting * bool) :=
  if esc then Some (depth, q, false)
  else if r =? backslash then Some (depth, q, true)
  else
    match q with
    | DoubleQuoted =>
        Some (depth, if r =? dquote then Unquoted else DoubleQuoted, false)
    | SingleQuoted =>
        Some (depth, if r =? squote then Unquoted else SingleQuoted, false)
    | Unquoted =>
        if r =? dquote then Some (depth, DoubleQuoted, false)
        else if r =? squote then Some (depth, SingleQuoted, false)
        else if r =? lparen then Some (S depth, Unquoted, false)
        else if r =? rparen then
          match depth with
          | O => None
          | S d => Some (d, Unquoted, false)
          end
        else Some (depth, Unquoted, false)
    end.

Fixpoint well_nested (depth : nat) (q : quoting) (esc : bool)
    (s : gostring) : bool :=
  match s with
  | [] =>
      negb esc && Nat.eqb depth 0
      && match q with Unquoted => true | _ => false end
  | r :: rest =>
      match nest_step depth q esc r with
      | None => false
      | Some (depth', q', esc') => well_nested depth' q' esc' rest
      end
  end.

(** The input has no dangling escape, no unclosed quote, and its
    parentheses are balanced: a property of the text alone. *)
Definition well_formed (s : gostring) : bool :=
  well_nested 0 Unquoted false s.

(** The separator is neither a quote nor a parenthesis. *)
Definition plain_sep (sep : rune) : bool :=
  negb ((sep =? dquote) || (sep =? squote)
        || (sep =? lparen) || (sep =? rparen)).

(** The state of [Fields] that stands for a nesting state. *)
Definition scan_of (b : gostring) (f : list gostring) (depth : nat)
    (q : quoting) (esc : bool) : scan :=
  mkScan b f (Z.of_nat depth)
    (match q with SingleQuoted => true | _ => false end)
    (match q with DoubleQuoted => true | _ => false end)
    esc.

(** Every rune of [f] behind a backslash. *)
Definition escape_all (f : gostring) : gostring :=
  flat_map (fun r => [backslash; r]) f.

(** [s] between double quotes, its double quotes and backslashes behind a
    backslash. *)
Definition quote (s : gostring) : gostring :=
  [dquote]
  ++ flat_map (fun r => if (r =? dquote) || (r =? backslash)
                        then [backslash; r] else [r]) s
  ++ [dquote].

(** [s] between double quotes, as it is. *)
Definition enclose (s : gostring) : gostring := [dquote] ++ s ++ [dquote].

(** A rune with no meaning of its own to [Fields]. *)
Definition ordinary (r : rune) : bool :=
  negb ((r =? backslash) || (r =? dquote) || (r =? squote)
        || (r =? lparen) || (r =? rparen)).

(** The runs of runes of [s] between the occurrences of the rune [sep],
    with [cur] the run being read. *)
Fixpoint split_from (cur s : gostring) (sep : rune) : list gostring :=
  match s with
  | [] => [cur]
  | r :: rest =>
      if r =? sep then cur :: split_from [] rest sep
      else split_from (cur ++ [r]) rest sep
  end.

(** [l] without its last element when that is the empty string. *)
Fixpoint trim_last (l : list gostring) : list gostring :=
  match l with
  | [] => []
  | [x] => match x with [] => [] | _ :: _ => [x] end
  | x :: rest => x :: trim_last rest
  end.

(** The number of double quotes of [s] is even. *)
Fixpoint even_quotes (s : gostring) : bool :=
  match s with
  | [] => true
  | r :: rest => if r =? dquote then negb (even_quotes rest)
                 else even_quotes rest
  end.

(** Case analysis on the branch that [step] takes, on a state given by
    its components. *)
Ltac step_cases sep r :=
  unfold step, splits, flush, WriteRune, set_isEscaped, set_inSingle,
    set_inDouble, set_balance;
  cbn [sb fields balance inSingle inDouble isEscaped];
  match goal with
  | |- context [if ?e then _ else if r =? backslash then _ else _] =>
      destruct e
  end;
  [| destruct (r =? backslash) eqn:?;
     [| destruct (r =? sep) eqn:?;
        [| destruct (r =? dquote) eqn:?;
           [| destruct (r =? squote) eqn:?;
              [| destruct (r =? lparen) eqn:?;
                 [| destruct (r =? rparen) eqn:? ]]]]]];
  repeat match goal with
         | |- context [negb ?b] => is_var b; destruct b
         | |- context [?n =? 0] => is_var n; destruct (n =? 0) eqn:?
         end;
  cbn [negb andb sb fields balance inSingle inDouble isEscaped].

(** Turns a goal [b = true] on comparisons of integers into the
    comparisons themselves. *)
Ltac bool_true :=
  repeat (rewrite andb_true_iff || rewrite orb_true_iff);
  rewrite ?Z.leb_le, ?Z.ltb_lt, ?Z.eqb_eq.

(** ** The test corpus of [gobag_test.go] *)

Example test_simple :
  Fields (runes "a,b,c") comma
  = (Some [runes "a"; runes "b"; runes "c"], None).
Proof. reflexivity. Qed.

Example test_empty : Fields [] comma = (Some [], None).
Proof. reflexivity. Qed.

Example test_nested_parens :
  Fields (runes "a,(b,(c,d),e),f") comma
  = (Some [runes "a"; runes "(b,(c,d),e)"; runes "f"], None).
Proof. reflexivity. Qed.

Example test_escaped_comma :
  Fields (runes "a\,b,c") comma = (Some [runes "a,b"; runes "c"], None).
Proof. reflexivity. Qed.

Example test_escaped_backslash :
  Fields (runes "a\\b,c") comma = (Some [runes "a\b"; runes "c"], None).
Proof. reflexivity. Qed.

Example test_dangling :
  Fields (runes "a,b\") comma = (None, Some err_dangling).
Proof. reflexivity. Qed.

Example test_single_quote :
  Fields (runes "a,'b,c") comma = (None, Some err_single_quote).
Proof. reflexivity. Qed.

Example test_unbalanced :
  Fields (runes "a,(b,c") comma = (None, Some err_unbalanced_parens).
Proof. reflexivity. Qed.

Example test_too_many :
  Fields (runes "a,b)c") comma = (None, Some err_too_many_closing).
Proof. reflexivity. Qed.

Example test_double_quotes :
  Fields (runes "a," ++ [dquote] ++ runes "b,c" ++ [dquote] ++ runes ",d") comma
  = (Some [runes "a"; [dquote] ++ runes "b,c" ++ [dquote]; runes "d"], None).
Proof. reflexivity. Qed.

Example test_unquote_escaped_newline :
  UnquoteString ([dquote] ++ runes "foo\" ++ [dquote] ++ runes "\n" ++ [dquote]
                 ++ runes "," ++ [dquote] ++ runes "bar" ++ [dquote])
  = (runes "foo" ++ [dquote] ++ runes "\n,bar", None).
Proof. reflexivity. Qed.

Example test_unquote_outside :
  UnquoteString (runes "\" ++ [dquote; dquote] ++ runes "foo" ++ [dquote]
                 ++ runes "\" ++ [dquote])
  = ([], Some err_escape_outside).
Proof. reflexivity. Qed.

Example test_unquote_unterminated :
  UnquoteString ([dquote] ++ runes "foo\" ++ [dquote])
  = ([], Some err_unterminated).
Proof. reflexivity. Qed.

(** ** The scan loop of [Fields] *)

Section ScanLoop.

Variable sep : rune.

Lemma scan_from_app (st : scan) (p q : gostring) :
  scan_from sep st (p ++ q) = scan_from sep (scan_from sep st p) q.
Proof. unfold scan_from. apply fold_left_app. Qed.

Lemma run_app (p q : gostring) :
  run sep (p ++ q) = scan_from sep (run sep p) q.
Proof. apply scan_from_app. Qed.

Lemma run_snoc (p : gostring) (r : rune) :
  run sep (p ++ [r]) = step sep (run sep p) r.
Proof. rewrite run_app. reflexivity. Qed.

Lemma step_exclusive (st : scan) (r : rune) :
  inSingle st && inDouble st = false ->
  inSingle (step sep st r) && inDouble (step sep st r) = false.
Proof.
  destruct st as [b f n s d e]. step_cases sep r;
    cbn [negb andb inSingle inDouble]; try tauto;
    destruct s, d; cbn; congruence.
Qed.

Lemma scan_from_exclusive (s : gostring) : forall st,
  inSingle st && inDouble st = false ->
  inSingle (scan_from sep st s) && inDouble (scan_from sep st s) = false.
Proof.
  induction s as [|r s IH]; intros st H; cbn; [exact H|].
  apply IH, step_exclusive, H.
Qed.

Lemma step_fields_grow (st : scan) (r : rune) :
  exists tl, fields (step sep st r) = fields st ++ tl.
Proof.
  destruct st as [b f n s d e]. step_cases sep r;
    solve [ exists []; now rewrite app_nil_r | eexists; reflexivity ].
Qed.

Lemma scan_from_fields_grow (s : gostring) : forall st,
  exists tl, fields (scan_from sep st s) = fields st ++ tl.
Proof.
  induction s as [|r s IH]; intros st; cbn.
  - exists []. now rewrite app_nil_r.
  - destruct (IH (step sep st r)) as [t2 E2].
    destruct (step_fields_grow st r) as [t1 E1].
    exists (t1 ++ t2). unfold scan_from in E2. rewrite E2, E1.
    now rewrite app_assoc.
Qed.

(** What one iteration adds to the text scanned so far. *)
Lemma step_flat (st : scan) (r : rune) :
  flat sep (step sep st r)
  = flat sep st ++ (if isEscaped st then [r]
                    else if r =? backslash then [] else [r]).
Proof.
  assert (Hs : (r =? sep) = true -> r = sep)
    by (intros E; now apply Z.eqb_eq).
  destruct st as [b f n s d e]. unfold flat. step_cases sep r;
    rewrite ?app_nil_r, ?app_assoc; try reflexivity.
  rewrite map_app, concat_app. cbn. rewrite app_nil_r, (Hs eq_refl).
  now rewrite app_assoc.
Qed.

Lemma step_isEscaped (st : scan) (r : rune) :
  isEscaped (step sep st r)
  = (if isEscaped st then false else r =? backslash).
Proof.
  destruct st as [b f n s d e]. step_cases sep r; congruence.
Qed.

Lemma scan_from_flat (s : gostring) : forall st,
  flat sep (scan_from sep st s)
  = flat sep st ++ unescape_from (isEscaped st) s.
Proof.
  induction s as [|r s IH]; intros st; cbn.
  - now rewrite app_nil_r.
  - unfold scan_from in IH. rewrite IH, step_flat, step_isEscaped.
    destruct (isEscaped st); [|destruct (r =? backslash)];
      now rewrite <- app_assoc.
Qed.

(** The counter moves by at most one per rune, so on a string shorter
    than [2 ^ 63] runes, as every Go string is, it never wraps around. *)
Lemma wrap_int_id (x : Z) : - 2 ^ 63 <= x < 2 ^ 63 -> wrap_int x = x.
Proof.
  intros H. unfold wrap_int. rewrite Z.mod_small; lia.
Qed.

Lemma step_balance_bound (st : scan) (r : rune) :
  Z.abs (balance st) + 1 < 2 ^ 63 ->
  Z.abs (balance (step sep st r)) <= Z.abs (balance st) + 1.
Proof.
  intros H. destruct st as [b f n s d e]. cbn [balance] in H.
  step_cases sep r; try lia; rewrite wrap_int_id; lia.
Qed.

Lemma scan_from_balance_bound (s : gostring) : forall st,
  Z.abs (balance st) + Z.of_nat (List.length s) < 2 ^ 63 ->
  Z.abs (balance (scan_from sep st s))
  <= Z.abs (balance st) + Z.of_nat (List.length s).
Proof.
  induction s as [|r s IH]; intros st H; [cbn in *; lia|].
  change (scan_from sep st (r :: s)) with (scan_from sep (step sep st r) s).
  cbn [List.length] in *.
  assert (Hstep := step_balance_bound st r ltac:(lia)).
  specialize (IH (step sep st r) ltac:(lia)). lia.
Qed.

End ScanLoop.

(** ** Joining fields *)

Lemma Join_snoc (sep : gostring) (fs : list gostring) (b : gostring) :
  Join (fs ++ [b]) sep = List.concat (map (fun f => f ++ sep) fs) ++ b.
Proof.
  induction fs as [|f fs IH]; [reflexivity|].
  cbn [map List.concat]. rewrite <- app_assoc, <- app_assoc, <- IH.
  destruct fs; reflexivity.
Qed.

Lemma concat_sep_Join (sep : gostring) (fs : list gostring) :
  fs <> [] ->
  List.concat (map (fun f => f ++ sep) fs) = Join fs sep ++ sep.
Proof.
  intros Hne. destruct (exists_last Hne) as [fs' [l ->]].
  rewrite Join_snoc, map_app, concat_app. cbn. now rewrite app_nil_r, app_assoc.
Qed.

Lemma unescape_from_plain (s : gostring) :
  ~ In backslash s -> unescape_from false s = s.
Proof.
  induction s as [|r s IH]; intros Hn; [reflexivity|]. cbn.
  destruct (r =? backslash) eqn:E.
  - apply Z.eqb_eq in E. exfalso. apply Hn. now left.
  - f_equal. apply IH. intros Hin. apply Hn. now right.
Qed.

(** ** The end-of-scan checks of [Fields] *)

Lemma finish_balanced (st : scan) :
  isEscaped st = false -> balance st = 0 ->
  inSingle st = false -> inDouble st = false ->
  finish st = (Some (match sb st with
                     | [] => fields st
                     | _ :: _ => fields st ++ [sb st]
                     end), None).
Proof.
  intros He Hb Hs Hd. unfold finish. now rewrite He, Hb, Hs, Hd.
Qed.

Lemma finish_first_violation (st : scan) :
  snd (finish st) = first_violation st.
Proof.
  unfold finish, first_violation, violations. cbn [find fst].
  destruct (isEscaped st); [reflexivity|].
  destruct (balance st <? 0) eqn:Hneg; [reflexivity|].
  destruct (balance st =? 0) eqn:Hz; cbn [negb].
  - apply Z.eqb_eq in Hz. rewrite Hz. cbn.
    destruct (inSingle st); [reflexivity|]. now destruct (inDouble st).
  - apply Z.ltb_ge in Hneg. apply Z.eqb_neq in Hz.
    assert (Hpos : (0 <? balance st) = true) by (apply Z.ltb_lt; lia).
    now rewrite Hpos.
Qed.

Lemma finish_error_iff (st : scan) :
  snd (finish st) <> None <->
  isEscaped st = true \/ balance st <> 0 \/
  inSingle st = true \/ inDouble st = true.
Proof.
  unfold finish.
  destruct (isEscaped st); [cbn; split; [auto | discriminate]|].
  destruct (balance st <? 0) eqn:Hneg.
  { apply Z.ltb_lt in Hneg. cbn. split; [intros _; right; left; lia
                                         | discriminate]. }
  destruct (balance st =? 0) eqn:Hz; cbn [negb].
  2:{ apply Z.eqb_neq in Hz. cbn. split; [auto | discriminate]. }
  apply Z.eqb_eq in Hz.
  destruct (inSingle st); [cbn; split; [auto | discriminate]|].
  destruct (inDouble st); [cbn; split; [auto | discriminate]|].
  cbn. split; [congruence|]. intros [H|[H|[H|H]]]; congruence.
Qed.

Lemma finish_error_nil (st : scan) :
  snd (finish st) <> None -> fst (finish st) = None.
Proof.
  unfold finish.
  destruct (isEscaped st); [reflexivity|].
  destruct (balance st <? 0); [reflexivity|].
  destruct (negb (balance st =? 0)); [reflexivity|].
  destruct (inSingle st); [reflexivity|].
  destruct (inDouble st); [reflexivity|].
  cbn. congruence.
Qed.

(** ** Properties of [Fields] *)

(** On runes: when the scan ends with nothing pending, there is no error,
    and the fields joined by the separator are the runes read, less the
    escaping backslashes and the delimiter that closed the last field. *)
Lemma balanced_join (s : gostring) (sep : rune) :
  balanced sep s ->
  exists fs,
    Fields s sep = (Some fs, None) /\
    join_recovers (unescape s) sep fs /\
    (~ In backslash s -> join_recovers s sep fs).
Proof.
  intros (He & Hb & Hs & Hd).
  assert (Hflat : flat sep (run sep s) = unescape s)
    by (unfold run; rewrite scan_from_flat; reflexivity).
  assert (Hrec : join_recovers (unescape s) sep
                   match sb (run sep s) with
                   | [] => fields (run sep s)
                   | _ :: _ => fields (run sep s) ++ [sb (run sep s)]
                   end).
  { unfold join_recovers. rewrite <- Hflat. unfold flat.
    destruct (sb (run sep s)) as [|c b] eqn:Esb.
    - rewrite app_nil_r. destruct (fields (run sep s)) as [|f fs] eqn:Ef.
      + now left.
      + right. symmetry. now apply concat_sep_Join.
    - left. apply Join_snoc. }
  eexists. split; [unfold Fields; now apply finish_balanced|].
  split; [exact Hrec|].
  intros Hn. unfold unescape in Hrec.
  now rewrite (unescape_from_plain s Hn) in Hrec.
Qed.

(** C2.  The paren counter is checked only after the loop: a closing
    parenthesis that takes it to [-1] is not fatal, and a later opening
    parenthesis brings it back to zero, so [Fields] succeeds. *)
Theorem Fields_negative_dip_accepted :
  balance (run comma (runes ")")) = -1 /\
  balance (run comma (runes ")(")) = 0 /\
  Fields (runes ")(") comma = (Some [runes ")("], None) /\
  Fields (runes ")a,b(") comma = (Some [runes ")a,b("], None).
Proof. repeat split; reflexivity. Qed.

(** C3.  [Fields] returns an error exactly when the scan ends with the
    escape flag set, a nonzero paren counter or an open quote; the error
    is that of the first violation in the order dangling escape, negative
    counter, positive counter, open single quote, open double quote; and
    with an error the returned slice is nil. *)
Theorem Fields_error_iff (s : gostring) (sep : rune) :
  (snd (Fields s sep) <> None <->
     isEscaped (run sep s) = true \/ balance (run sep s) <> 0 \/
     inSingle (run sep s) = true \/ inDouble (run sep s) = true) /\
  snd (Fields s sep) = first_violation (run sep s) /\
  (snd (Fields s sep) <> None -> fst (Fields s sep) = None).
Proof.
  unfold Fields. split; [apply finish_error_iff|].
  split; [apply finish_first_violation | apply finish_error_nil].
Qed.

Lemma Fields_error_iff_witness :
  snd (Fields (runes "a,(b'\") comma) = Some err_dangling /\
  snd (Fields (runes "a,b)'") comma) = Some err_too_many_closing /\
  snd (Fields (runes "a,((b)'") comma) = Some err_unbalanced_parens /\
  fst (Fields (runes "a,(b,c") comma) = None.
Proof.
  split; [|split; [|split]].
  - now rewrite (proj1 (proj2 (Fields_error_iff (runes "a,(b'\") comma))).
  - now rewrite (proj1 (proj2 (Fields_error_iff (runes "a,b)'") comma))).
  - now rewrite (proj1 (proj2 (Fields_error_iff (runes "a,((b)'") comma))).
  - apply (proj2 (proj2 (Fields_error_iff (runes "a,(b,c") comma))).
    apply (proj1 (Fields_error_iff (runes "a,(b,c") comma)).
    right. left. cbn. discriminate.
Defined.

Lemma step_delimits (sep : rune) (st : scan) :
  delimits sep st -> step sep st sep = flush st.
Proof.
  intros (Hsep & He & Hsp). unfold step. rewrite He, Hsp, Z.eqb_refl.
  apply Z.eqb_neq in Hsep. now rewrite Hsep.
Qed.

Lemma balanced_delimits (sep : rune) (p : gostring) :
  sep <> backslash -> balanced sep p -> delimits sep (run sep p).
Proof.
  intros Hsep (He & Hb & Hs & Hd). unfold delimits, splits.
  now rewrite He, Hb, Hs, Hd.
Qed.

(** C4 (as amended).  A separator that is read with the escape flag clear,
    and is not the backslash, closes the current field exactly when the
    paren counter is zero and neither quote is open, and is then not
    written to any field; otherwise it is copied into the current field.
    A separator read with the escape flag set is copied and closes
    nothing.  A quote or a paren is written to the current field whenever
    it is escaped or is not the separator.  The example of the test corpus
    keeps its double quotes in the middle field. *)
Theorem Fields_separator_dispatch
    (sep : rune) (b : gostring) (f : list gostring) (n : Z) (s d : bool) :
  sep <> backslash ->
  step sep (mkScan b f n s d false) sep
    = (if (n =? 0) && negb s && negb d
       then mkScan [] (f ++ [b]) n s d false
       else mkScan (b ++ [sep]) f n s d false) /\
  step sep (mkScan b f n s d true) sep = mkScan (b ++ [sep]) f n s d false /\
  (forall (r : rune) (e : bool),
     In r [dquote; squote; lparen; rparen] -> r <> sep \/ e = true ->
     sb (step sep (mkScan b f n s d e) r) = b ++ [r] /\
     fields (step sep (mkScan b f n s d e) r) = f) /\
  Fields (runes "a," ++ [dquote] ++ runes "b,c" ++ [dquote] ++ runes ",d")
         comma
    = (Some [runes "a"; [dquote] ++ runes "b,c" ++ [dquote]; runes "d"],
       None).
Proof.
  intros Hsep. apply Z.eqb_neq in Hsep.
  split; [|split; [|split]].
  - unfold step, splits. cbn [isEscaped balance inSingle inDouble].
    rewrite Hsep, Z.eqb_refl. now destruct ((n =? 0) && negb s && negb d).
  - reflexivity.
  - intros r e Hin Hr.
    assert (Hrs : e = false -> (r =? sep) = false).
    { intros ->. apply Z.eqb_neq. destruct Hr; [assumption | discriminate]. }
    destruct e; [split; reflexivity|]. specialize (Hrs eq_refl).
    unfold step. cbn [isEscaped]. rewrite Hrs.
    cbn in Hin. destruct Hin as [<-|[<-|[<-|[<-|[]]]]]; cbn;
      destruct s, d; split; reflexivity.
  - reflexivity.
Qed.

Lemma Fields_separator_dispatch_witness :
  step comma (mkScan (runes "a") [] 0 false false false) comma
    = mkScan [] [runes "a"] 0 false false false /\
  step comma (mkScan (runes "a") [] 0 false true false) comma
    = mkScan (runes "a,") [] 0 false true false /\
  sb (step comma (mkScan (runes "a") [] 0 false false false) dquote)
    = runes "a" ++ [dquote].
Proof.
  assert (Hsep : comma <> backslash) by discriminate.
  split; [|split].
  - exact (proj1 (Fields_separator_dispatch comma (runes "a") [] 0
                    false false Hsep)).
  - exact (proj1 (Fields_separator_dispatch comma (runes "a") [] 0
                    false true Hsep)).
  - apply (proj1 (proj2 (proj2 (Fields_separator_dispatch comma (runes "a")
                                  [] 0 false false Hsep)))).
    + cbn. tauto.
    + left. discriminate.
Defined.

(** C4 (as stated) fails in two places.  The escaped comma of the test
    corpus is read with the counter at zero and no quote open, and does
    not split.  With the double quote as separator, the quote closes the
    field and is written to no field. *)
Lemma Fields_separator_exceptions :
  (balance (run comma (runes "a\")) = 0 /\
   inSingle (run comma (runes "a\")) = false /\
   inDouble (run comma (runes "a\")) = false /\
   fields (step comma (run comma (runes "a\")) comma) = [] /\
   Fields (runes "a\,b") comma = (Some [runes "a,b"], None)) /\
  (Fields (runes "a" ++ [dquote] ++ runes "b") dquote
     = (Some [runes "a"; runes "b"], None) /\
   ~ In dquote (runes "a") /\ ~ In dquote (runes "b")).
Proof.
  split; [repeat split; reflexivity|].
  split; [reflexivity|].
  split; cbn; intros H; repeat destruct H as [H|H]; try discriminate H;
    exact H.
Qed.

(** C8.  After a successful scan the open field is appended only when it
    is non-empty.  The empty input gives the empty slice.  An input that
    ends in an unsuppressed separator gives the fields closed so far, with
    no empty field after the last one.  Two unsuppressed separators in a
    row close an empty field between them, and that field stays in the
    result whatever follows. *)
Theorem Fields_trailing_field (sep : rune) (s p q : gostring) :
  balanced sep s -> delimits sep (run sep p) ->
  Fields s sep
    = (Some (fields (run sep s)
             ++ match sb (run sep s) with [] => [] | _ :: _ => [sb (run sep s)] end),
       None) /\
  Fields [] sep = (Some [], None) /\
  Fields (p ++ [sep]) sep
    = (Some (fields (run sep p) ++ [sb (run sep p)]), None) /\
  fields (run sep (p ++ [sep; sep]))
    = fields (run sep p) ++ [sb (run sep p); []] /\
  (forall fs, Fields (p ++ [sep; sep] ++ q) sep = (Some fs, None) ->
     exists tl, fs = fields (run sep p) ++ [sb (run sep p); []] ++ tl).
Proof.
  intros (He & Hb & Hs & Hd) Hp.
  assert (Hflush : run sep (p ++ [sep]) = flush (run sep p))
    by (rewrite run_snoc; now apply step_delimits).
  assert (Hp' : delimits sep (flush (run sep p)))
    by (destruct Hp as (? & ? & ?); repeat split; assumption).
  assert (Hflush2 : run sep (p ++ [sep; sep]) = flush (flush (run sep p))).
  { change [sep; sep] with ([sep] ++ [sep]).
    rewrite app_assoc, run_snoc, Hflush. now apply step_delimits. }
  split; [|split; [reflexivity|split; [|split]]].
  - unfold Fields. rewrite finish_balanced by assumption.
    destruct (sb (run sep s)); [now rewrite app_nil_r | reflexivity].
  - destruct Hp as (_ & Hpe & Hps). unfold splits in Hps.
    apply andb_prop in Hps as [Hps Hpd]. apply andb_prop in Hps as [Hpb Hpq].
    apply Z.eqb_eq in Hpb. apply negb_true_iff in Hpq, Hpd.
    unfold Fields. rewrite Hflush. now rewrite finish_balanced.
  - rewrite Hflush2. cbn. now rewrite <- app_assoc.
  - intros fs Hfs. unfold Fields in Hfs.
    rewrite app_assoc, run_app, Hflush2 in Hfs.
    destruct (scan_from_fields_grow sep q (flush (flush (run sep p))))
      as [tl Htl].
    cbn [flush fields sb] in Htl. rewrite <- app_assoc in Htl. cbn in Htl.
    set (st := scan_from sep (flush (flush (run sep p))) q) in *.
    unfold finish in Hfs.
    destruct (isEscaped st); [discriminate|].
    destruct (balance st <? 0); [discriminate|].
    destruct (negb (balance st =? 0)); [discriminate|].
    destruct (inSingle st); [discriminate|].
    destruct (inDouble st); [discriminate|].
    injection Hfs as <-. rewrite Htl.
    destruct (sb st).
    + exists tl. now rewrite <- app_assoc.
    + eexists (tl ++ _). rewrite <- !app_assoc. reflexivity.
Qed.

Lemma Fields_trailing_field_witness :
  Fields (runes "a,") comma = (Some [runes "a"], None) /\
  fields (run comma (runes "a,,")) = [runes "a"; []] /\
  Fields (runes "a,,b") comma = (Some [runes "a"; []; runes "b"], None).
Proof.
  assert (Hs : balanced comma (runes "a,,b")) by (repeat split; reflexivity).
  assert (Hp : delimits comma (run comma (runes "a")))
    by (repeat split; try reflexivity; discriminate).
  pose proof (Fields_trailing_field comma (runes "a,,b") (runes "a")
                (runes "b") Hs Hp) as (H1 & _ & H3 & H4 & _).
  split; [exact H3 | split; [exact H4 | exact H1]].
Defined.

(** C9.  At every position of every scan the two quote flags are not both
    set.  A double quote read while a single quote is open, and a single
    quote read while a double quote is open, leaves both flags as they are
    and is written to the current field. *)
Theorem Fields_quotes_exclusive (sep : rune) (p q : gostring) :
  run sep (p ++ q) = scan_from sep (run sep p) q /\
  inSingle (run sep p) && inDouble (run sep p) = false /\
  (forall b f n d e,
     step sep (mkScan b f n true d e) dquote
     = mkScan (b ++ [dquote]) f n true d false) /\
  (forall b f n s e,
     step sep (mkScan b f n s true e) squote
     = mkScan (b ++ [squote]) f n s true false).
Proof.
  split; [apply run_app|].
  split; [now apply scan_from_exclusive|].
  split.
  - intros b f n d e. destruct e; [reflexivity|].
    unfold step, splits. cbn [isEscaped inSingle inDouble balance].
    change (dquote =? backslash) with false. cbv iota.
    destruct (dquote =? sep); [|reflexivity].
    now rewrite andb_false_r.
  - intros b f n s e. destruct e; [reflexivity|].
    unfold step, splits. cbn [isEscaped inSingle inDouble balance].
    change (squote =? backslash) with false. cbv iota.
    destruct (squote =? sep); [|reflexivity].
    now rewrite andb_false_r.
Qed.

(** ** The scan loop of [UnquoteString] *)

Lemma uscan_from_app (p q : gostring) : forall st,
  uscan_from st (p ++ q) = st' <- uscan_from st p ;; uscan_from st' q.
Proof.
  induction p as [|r p IH]; intros st; [reflexivity|]. cbn.
  destruct (ustep st r) as [e|st1]; [reflexivity|]. apply IH.
Qed.

Lemma ustep_escape_in_quote (st st' : unq) (r : rune) :
  escape_in_quote st -> ustep st r = ok st' -> escape_in_quote st'.
Proof.
  unfold escape_in_quote, ustep, ok, fail. intros Hinv Hstep.
  destruct (escape st) eqn:He.
  - destruct ((r =? dquote) || (r =? backslash));
      injection Hstep as <-; cbn; discriminate.
  - destruct (r =? backslash).
    + destruct (inQuote st) eqn:Hq; cbn in Hstep; [|discriminate].
      injection Hstep as <-. cbn. auto.
    + destruct (r =? dquote); injection Hstep as <-; cbn; discriminate.
Qed.

Lemma uscan_from_escape_in_quote (s : gostring) : forall st st',
  escape_in_quote st -> uscan_from st s = ok st' -> escape_in_quote st'.
Proof.
  induction s as [|r s IH]; intros st st' Hinv Hscan; cbn in Hscan.
  - injection Hscan as <-. exact Hinv.
  - destruct (ustep st r) as [e|st1] eqn:Hstep; [discriminate|].
    cbn in Hscan. apply (IH st1); [|exact Hscan].
    now apply (ustep_escape_in_quote st st1 r).
Qed.

Lemma urun_escape_in_quote (s : gostring) (st : unq) :
  urun s = ok st -> escape_in_quote st.
Proof.
  apply uscan_from_escape_in_quote. unfold escape_in_quote. discriminate.
Qed.

(** The loop only stops early at a backslash read outside a quote. *)
Lemma ustep_fail (st : unq) (r : rune) (e : error) :
  ustep st r = fail e ->
  r = backslash /\ escape st = false /\ inQuote st = false /\
  e = err_escape_outside.
Proof.
  unfold ustep, ok, fail. intros H.
  destruct (escape st).
  - destruct ((r =? dquote) || (r =? backslash)); discriminate.
  - destruct (r =? backslash) eqn:Hr.
    + apply Z.eqb_eq in Hr. destruct (inQuote st); cbn in H; [discriminate|].
      injection H as <-. auto.
    + destruct (r =? dquote); discriminate.
Qed.

Lemma uscan_from_fail (s : gostring) : forall st e,
  uscan_from st s = fail e ->
  exists p rest st',
    s = p ++ backslash :: rest /\ uscan_from st p = ok st' /\
    inQuote st' = false /\ e = err_escape_outside.
Proof.
  induction s as [|r s IH]; intros st e H; cbn in H; [discriminate|].
  destruct (ustep st r) as [e1|st1] eqn:Hstep; cbn in H.
  - injection H as ->. apply ustep_fail in Hstep as (-> & _ & Hq & ->).
    exists [], s, st. auto.
  - destruct (IH st1 e H) as (p & rest & st' & -> & Hp & Hq & He).
    exists (r :: p), rest, st'. cbn. rewrite Hstep. auto.
Qed.

Lemma urun_backslash_outside (p rest : gostring) (st : unq) :
  urun p = ok st -> inQuote st = false ->
  urun (p ++ backslash :: rest) = fail err_escape_outside.
Proof.
  intros Hp Hq. unfold urun in *. rewrite uscan_from_app, Hp. cbn.
  assert (He : escape st = false).
  { destruct (escape st) eqn:He; [|reflexivity].
    pose proof (urun_escape_in_quote p st Hp He). congruence. }
  unfold ustep. rewrite He, Hq. reflexivity.
Qed.

(** Runes other than the quote and the backslash are copied. *)
Lemma uscan_from_plain (s : gostring) : forall st,
  escape st = false -> ~ In dquote s -> ~ In backslash s ->
  uscan_from st s = ok (mkUnq (out st ++ s) (inQuote st) false).
Proof.
  induction s as [|r s IH]; intros st He Hd Hb; cbn.
  - rewrite app_nil_r. destruct st; cbn in *. now subst.
  - assert (Hrb : (r =? backslash) = false)
      by (apply Z.eqb_neq; intros ->; apply Hb; now left).
    assert (Hrd : (r =? dquote) = false)
      by (apply Z.eqb_neq; intros ->; apply Hd; now left).
    unfold ustep. rewrite He, Hrb, Hrd. cbn.
    rewrite IH; cbn; [now rewrite <- app_assoc | reflexivity | |].
    + intros H. apply Hd. now right.
    + intros H. apply Hb. now right.
Qed.

(** ** Properties of [UnquoteString] and [UnquoteStrings] *)

(** C5.  With the escape flag set, a double quote or a backslash is
    written alone, and any other rune is written after a backslash, the
    flag being cleared either way; so inside a quote an escape sequence
    other than backslash-quote and backslash-backslash is copied
    unchanged.  A double quote read with the flag clear toggles the quote
    state and is not written.  The escaped quote of the test corpus is
    kept and its delimiters are removed. *)
Theorem UnquoteString_escape_resolution
    (o : gostring) (q : bool) (r : rune) :
  ustep (mkUnq o q true) r
    = ok (mkUnq (if (r =? dquote) || (r =? backslash)
                 then o ++ [r] else o ++ [backslash; r]) q false) /\
  uscan_from (mkUnq o true false) [backslash; r]
    = ok (mkUnq (if (r =? dquote) || (r =? backslash)
                 then o ++ [r] else o ++ [backslash; r]) true false) /\
  ustep (mkUnq o q false) dquote = ok (mkUnq o (negb q) false) /\
  UnquoteString ([dquote] ++ runes "foo\" ++ [dquote; dquote] ++ runes ","
                 ++ [dquote] ++ runes "bar" ++ [dquote])
    = (runes "foo" ++ [dquote] ++ runes ",bar", None).
Proof.
  assert (H : ustep (mkUnq o q true) r
              = ok (mkUnq (if (r =? dquote) || (r =? backslash)
                           then o ++ [r] else o ++ [backslash; r]) q false)).
  { unfold ustep. cbn [escape out inQuote].
    destruct ((r =? dquote) || (r =? backslash)); [reflexivity|].
    now rewrite <- app_assoc. }
  split; [exact H|]. split; [|split; reflexivity].
  cbn [uscan_from]. unfold ustep at 1. cbn.
  unfold ustep. cbn [escape out inQuote].
  destruct ((r =? dquote) || (r =? backslash)); [reflexivity|].
  cbn. now rewrite <- app_assoc.
Qed.

(** C6.  [UnquoteString] returns an error exactly when the scan reads a
    backslash outside a quote, or ends with the escape flag set, or ends
    inside a quote; the three cases raise the errors of their names, the
    dangling escape before the unterminated quote; and with an error the
    returned string is empty. *)
Theorem UnquoteString_error_iff (s : gostring) :
  (snd (UnquoteString s) <> None <->
     (exists p rest st,
        s = p ++ backslash :: rest /\ urun p = ok st /\ inQuote st = false)
     \/ (exists st, urun s = ok st /\ escape st = true)
     \/ (exists st, urun s = ok st /\ inQuote st = true)) /\
  (forall p rest st,
     s = p ++ backslash :: rest -> urun p = ok st -> inQuote st = false ->
     UnquoteString s = ([], Some err_escape_outside)) /\
  (forall st, urun s = ok st -> escape st = true ->
     UnquoteString s = ([], Some err_dangling)) /\
  (forall st, urun s = ok st -> escape st = false -> inQuote st = true ->
     UnquoteString s = ([], Some err_unterminated)) /\
  (snd (UnquoteString s) <> None -> fst (UnquoteString s) = []).
Proof.
  assert (H1 : forall p rest st,
             s = p ++ backslash :: rest -> urun p = ok st ->
             inQuote st = false ->
             UnquoteString s = ([], Some err_escape_outside)).
  { intros p rest st -> Hp Hq. unfold UnquoteString.
    now rewrite (urun_backslash_outside p rest st Hp Hq). }
  assert (H2 : forall st, urun s = ok st -> escape st = true ->
                          UnquoteString s = ([], Some err_dangling)).
  { intros st Hs He. unfold UnquoteString. rewrite Hs. unfold ok.
    now rewrite He. }
  assert (H3 : forall st, urun s = ok st -> escape st = false ->
                          inQuote st = true ->
                          UnquoteString s = ([], Some err_unterminated)).
  { intros st Hs He Hq. unfold UnquoteString. rewrite Hs. unfold ok.
    now rewrite He, Hq. }
  split; [|split; [exact H1|split; [exact H2|split; [exact H3|]]]].
  - split.
    + intros Herr. unfold UnquoteString in Herr.
      destruct (urun s) as [e|st] eqn:Hs.
      * left. destruct (uscan_from_fail s unq_init e Hs)
          as (p & rest & st' & Heq & Hp & Hq & _).
        exists p, rest, st'. auto.
      * destruct (escape st) eqn:He; [right; left; eauto|].
        destruct (inQuote st) eqn:Hq; [right; right; eauto|].
        cbn in Herr. congruence.
    + intros [(p & rest & st & Heq & Hp & Hq)|[(st & Hs & He)|(st & Hs & Hq)]].
      * rewrite (H1 p rest st Heq Hp Hq). discriminate.
      * rewrite (H2 st Hs He). discriminate.
      * destruct (escape st) eqn:He.
        -- rewrite (H2 st Hs He). discriminate.
        -- rewrite (H3 st Hs He Hq). discriminate.
  - unfold UnquoteString. destruct (urun s) as [e|st]; [reflexivity|].
    destruct (escape st); [reflexivity|].
    destruct (inQuote st); [reflexivity|]. cbn. congruence.
Qed.

Lemma UnquoteString_error_iff_witness :
  UnquoteString (runes "a\b") = ([], Some err_escape_outside) /\
  UnquoteString ([dquote] ++ runes "a\") = ([], Some err_dangling) /\
  UnquoteString ([dquote] ++ runes "a") = ([], Some err_unterminated) /\
  fst (UnquoteString ([dquote] ++ runes "a")) = [].
Proof.
  split; [|split; [|split]].
  - apply (proj1 (proj2 (UnquoteString_error_iff (runes "a\b")))
             (runes "a") (runes "b") (mkUnq (runes "a") false false));
      reflexivity.
  - apply (proj1 (proj2 (proj2 (UnquoteString_error_iff
                                  ([dquote] ++ runes "a\"))))
             (mkUnq (runes "a") true true)); reflexivity.
  - apply (proj1 (proj2 (proj2 (proj2 (UnquoteString_error_iff
                                         ([dquote] ++ runes "a")))))
             (mkUnq (runes "a") true false)); reflexivity.
  - apply (proj2 (proj2 (proj2 (proj2 (UnquoteString_error_iff
                                         ([dquote] ++ runes "a")))))).
    apply (proj1 (UnquoteString_error_iff ([dquote] ++ runes "a"))).
    right. right. exists (mkUnq (runes "a") true false). split; reflexivity.
Defined.

(** The loop of [UnquoteStrings] over elements that all unquote. *)
Lemma UnquoteStrings_from_ok (elems : list gostring) : forall unquoted,
  Forall (fun e => snd (UnquoteString e) = None) elems ->
  UnquoteStrings_from unquoted elems
  = (Some (unquoted ++ map (fun e => fst (UnquoteString e)) elems), None).
Proof.
  induction elems as [|e elems IH]; intros unquoted Hall; cbn.
  - now rewrite app_nil_r.
  - inversion Hall as [|? ? He Hrest]; subst.
    destruct (UnquoteString e) as [s err] eqn:Hu. cbn in He. subst err.
    rewrite IH by assumption. cbn. now rewrite <- app_assoc.
Qed.

(** The loop of [UnquoteStrings] up to the first element that fails. *)
Lemma UnquoteStrings_from_fail (pre : list gostring) :
  forall unquoted e rest err,
  Forall (fun e => snd (UnquoteString e) = None) pre ->
  snd (UnquoteString e) = Some err ->
  UnquoteStrings_from unquoted (pre ++ e :: rest) = (None, Some err).
Proof.
  induction pre as [|x pre IH]; intros unquoted e rest err Hall He; cbn.
  - destruct (UnquoteString e) as [s o]. cbn in He. now subst o.
  - inversion Hall as [|? ? Hx Hrest]; subst.
    destruct (UnquoteString x) as [s o]. cbn in Hx. subst o.
    now apply IH.
Qed.

(** C7.  [UnquoteStrings] unquotes the elements in order.  When every
    element succeeds the result is the list of their results, of the same
    length and in the same order, with no error.  Otherwise the result is
    nil together with the error of the first element that fails. *)
Theorem UnquoteStrings_all_or_first_error (elems : list gostring) :
  (Forall (fun e => snd (UnquoteString e) = None) elems ->
   UnquoteStrings elems
     = (Some (map (fun e => fst (UnquoteString e)) elems), None) /\
   List.length (map (fun e => fst (UnquoteString e)) elems)
     = List.length elems) /\
  (forall pre e rest err,
     elems = pre ++ e :: rest ->
     Forall (fun e => snd (UnquoteString e) = None) pre ->
     snd (UnquoteString e) = Some err ->
     UnquoteStrings elems = (None, Some err)).
Proof.
  split.
  - intros Hall. split; [|apply length_map].
    unfold UnquoteStrings. now rewrite UnquoteStrings_from_ok.
  - intros pre e rest err -> Hall He. unfold UnquoteStrings.
    now apply UnquoteStrings_from_fail.
Qed.

Lemma UnquoteStrings_all_or_first_error_witness :
  UnquoteStrings [[dquote] ++ runes "a" ++ [dquote]; runes "b"]
    = (Some [runes "a"; runes "b"], None) /\
  UnquoteStrings [runes "a"; [dquote] ++ runes "b"; runes "c\"]
    = (None, Some err_unterminated).
Proof.
  split.
  - apply (proj1 (UnquoteStrings_all_or_first_error
                    [[dquote] ++ runes "a" ++ [dquote]; runes "b"])).
    repeat constructor.
  - apply (proj2 (UnquoteStrings_all_or_first_error
                    [runes "a"; [dquote] ++ runes "b"; runes "c\"])
             [runes "a"] ([dquote] ++ runes "b") [runes "c\"]
             err_unterminated).
    + reflexivity.
    + repeat constructor.
    + reflexivity.
Defined.

(** On runes: without double quote and backslash every rune read is
    written back. *)
Lemma UnquoteString_plain (s : gostring) :
  ~ In dquote s -> ~ In backslash s -> UnquoteString s = (s, None).
Proof.
  intros Hd Hb. unfold UnquoteString, urun.
  rewrite (uscan_from_plain s unq_init eq_refl Hd Hb). reflexivity.
Qed.

(** ** Further properties of [Fields] *)

Lemma ordinary_inv (r : rune) :
  ordinary r = true ->
  (r =? backslash) = false /\ (r =? dquote) = false /\
  (r =? squote) = false /\ (r =? lparen) = false /\ (r =? rparen) = false.
Proof.
  unfold ordinary. intros H. apply negb_true_iff in H.
  repeat (apply orb_false_iff in H; destruct H as [H ?]). auto.
Qed.

Lemma split_from_cons (s : gostring) (sep : rune) : forall cur,
  exists x l, split_from cur s sep = x :: l.
Proof.
  induction s as [|r s IH]; intros cur; cbn; [eauto|].
  destruct (r =? sep); [eauto | apply IH].
Qed.

Lemma trim_last_cons (x y : gostring) (l : list gostring) :
  trim_last (x :: y :: l) = x :: trim_last (y :: l).
Proof. reflexivity. Qed.

Lemma trim_last_nonempty (l : list gostring) :
  Forall (fun x => x <> []) l -> trim_last l = l.
Proof.
  induction l as [|x l IH]; intros H; [reflexivity|].
  inversion H as [|? ? Hx Hl]; subst.
  destruct l as [|y l].
  - cbn. destruct x; [contradiction | reflexivity].
  - rewrite trim_last_cons, IH by assumption. reflexivity.
Qed.

Lemma finish_neutral (b : gostring) (f : list gostring) :
  finish (neutral b f) = (Some (f ++ trim_last [b]), None).
Proof.
  unfold finish, neutral. cbn. destruct b; [now rewrite app_nil_r|reflexivity].
Qed.

Lemma scan_ordinary (sep : rune) (s : gostring) : forall b f,
  forallb ordinary s = true ->
  finish (scan_from sep (neutral b f) s)
  = (Some (f ++ trim_last (split_from b s sep)), None).
Proof.
  induction s as [|r s IH]; intros b f Hs.
  - apply finish_neutral.
  - cbn in Hs. apply andb_prop in Hs as [Hr Hs].
    apply ordinary_inv in Hr as (Hb & Hd & Hq & Hl & Hp).
    change (scan_from sep (neutral b f) (r :: s))
      with (scan_from sep (step sep (neutral b f) r) s).
    unfold step, neutral. cbn [isEscaped]. rewrite Hb.
    cbn [split_from]. destruct (r =? sep) eqn:Hsep.
    + change (splits (mkScan b f 0 false false false)) with true.
      cbv iota. change (flush (mkScan b f 0 false false false))
        with (neutral [] (f ++ [b])).
      rewrite (IH [] (f ++ [b]) Hs).
      destruct (split_from_cons s sep []) as (x & l & ->).
      rewrite trim_last_cons, <- app_assoc. reflexivity.
    + rewrite Hd, Hq, Hl, Hp.
      change (WriteRune r (mkScan b f 0 false false false))
        with (neutral (b ++ [r]) f).
      apply (IH (b ++ [r]) f Hs).
Qed.

(** On runes: without backslash, quote and parenthesis every separator
    splits. *)
Lemma Fields_ordinary (s : gostring) (sep : rune) :
  forallb ordinary s = true ->
  Fields s sep = (Some (trim_last (split_from [] s sep)), None).
Proof.
  intros Hs. unfold Fields, run.
  apply (scan_ordinary sep s [] [] Hs).
Qed.

(** Scanning segments that each only append to the open field, joined by
    the separator. *)
Section JoinedSegments.

Variable sep : rune.
Variable enc dec : gostring -> gostring.
Variable good : gostring -> Prop.

Hypothesis sep_not_backslash : sep <> backslash.
Hypothesis scan_enc : forall x b f,
  good x ->
  scan_from sep (neutral b f) (enc x) = neutral (b ++ dec x) f.

Lemma scan_sep_neutral (b : gostring) (f : list gostring) :
  scan_from sep (neutral b f) [sep] = neutral [] (f ++ [b]).
Proof.
  cbn. unfold step, neutral. cbn [isEscaped].
  apply Z.eqb_neq in sep_not_backslash. now rewrite sep_not_backslash, Z.eqb_refl.
Qed.

Lemma scan_joined (fs : list gostring) : forall x b f,
  Forall good (x :: fs) ->
  finish (scan_from sep (neutral b f) (Join (map enc (x :: fs)) [sep]))
  = (Some (f ++ trim_last ((b ++ dec x) :: map dec fs)), None).
Proof.
  induction fs as [|y fs IH]; intros x b f Hall;
    inversion Hall as [|? ? Hx Hfs]; subst.
  - cbn [map Join]. rewrite scan_enc by assumption. apply finish_neutral.
  - change (Join (map enc (x :: y :: fs)) [sep])
      with (enc x ++ [sep] ++ Join (map enc (y :: fs)) [sep]).
    rewrite !scan_from_app, scan_enc, scan_sep_neutral by assumption.
    etransitivity; [exact (IH y [] (f ++ [b ++ dec x]) Hfs)|].
    cbn [map app]. rewrite trim_last_cons, <- app_assoc. reflexivity.
Qed.

Lemma Fields_joined (fs : list gostring) :
  Forall good fs ->
  Fields (Join (map enc fs) [sep]) sep
  = (Some (trim_last (map dec fs)), None).
Proof.
  intros Hall. destruct fs as [|x fs]; [reflexivity|].
  unfold Fields, run. change scan_init with (neutral [] []).
  apply (scan_joined fs x [] [] Hall).
Qed.

End JoinedSegments.

Lemma scan_escape_all (sep : rune) (x : gostring) : forall b f n s d,
  scan_from sep (mkScan b f n s d false) (escape_all x)
  = mkScan (b ++ x) f n s d false.
Proof.
  induction x as [|r x IH]; intros b f n s d.
  - cbn. now rewrite app_nil_r.
  - change (scan_from sep (mkScan b f n s d false) (escape_all (r :: x)))
      with (scan_from sep (mkScan (b ++ [r]) f n s d false) (escape_all x)).
    rewrite IH, <- app_assoc. reflexivity.
Qed.

(** On runes: fields written rune by rune behind backslashes come back
    as they are. *)
Lemma Fields_escape_all (fs : list gostring) (sep : rune) :
  sep <> backslash ->
  Fields (Join (map escape_all fs) [sep]) sep = (Some (trim_last fs), None).
Proof.
  intros Hsep.
  rewrite (Fields_joined sep escape_all (fun x => x) (fun _ => True) Hsep).
  - now rewrite map_id.
  - intros x b f _. apply scan_escape_all.
  - now apply Forall_forall.
Qed.

Lemma scan_in_double (sep : rune) (x : gostring) : forall b f n,
  ~ In dquote x -> ~ In backslash x ->
  scan_from sep (mkScan b f n false true false) x
  = mkScan (b ++ x) f n false true false.
Proof.
  induction x as [|r x IH]; intros b f n Hd Hb.
  - cbn. now rewrite app_nil_r.
  - assert (Hrb : (r =? backslash) = false)
      by (apply Z.eqb_neq; intros ->; apply Hb; now left).
    assert (Hrd : (r =? dquote) = false)
      by (apply Z.eqb_neq; intros ->; apply Hd; now left).
    assert (Hstep : step sep (mkScan b f n false true false) r
                    = mkScan (b ++ [r]) f n false true false).
    { unfold step, splits. cbn [isEscaped balance inSingle inDouble].
      rewrite Hrb, Hrd, andb_false_r.
      destruct (r =? sep); [reflexivity|].
      destruct (r =? squote); [reflexivity|].
      destruct (r =? lparen); [reflexivity|].
      destruct (r =? rparen); reflexivity. }
    change (scan_from sep (mkScan b f n false true false) (r :: x))
      with (scan_from sep (step sep (mkScan b f n false true false) r) x).
    rewrite Hstep, IH, <- app_assoc; [reflexivity| |].
    + intros H. apply Hd. now right.
    + intros H. apply Hb. now right.
Qed.

Lemma scan_enclose (sep : rune) (x b : gostring) (f : list gostring) :
  sep <> dquote -> ~ In dquote x -> ~ In backslash x ->
  scan_from sep (neutral b f) (enclose x) = neutral (b ++ enclose x) f.
Proof.
  intros Hsep Hd Hb.
  assert (Hds : (dquote =? sep) = false)
    by (apply Z.eqb_neq; congruence).
  assert (Hopen : step sep (neutral b f) dquote
                  = mkScan (b ++ [dquote]) f 0 false true false).
  { unfold step, neutral. cbn [isEscaped]. rewrite Hds. reflexivity. }
  assert (Hclose : forall c, step sep (mkScan c f 0 false true false) dquote
                             = neutral (c ++ [dquote]) f).
  { intros c. unfold step. cbn [isEscaped]. rewrite Hds. reflexivity. }
  unfold enclose.
  change ([dquote] ++ x ++ [dquote]) with (dquote :: (x ++ [dquote])).
  change (scan_from sep (neutral b f) (dquote :: (x ++ [dquote])))
    with (scan_from sep (step sep (neutral b f) dquote) (x ++ [dquote])).
  rewrite Hopen, scan_from_app, scan_in_double by assumption.
  change (scan_from sep (mkScan ((b ++ [dquote]) ++ x) f 0 false true false)
            [dquote])
    with (step sep (mkScan ((b ++ [dquote]) ++ x) f 0 false true false)
            dquote).
  rewrite Hclose. f_equal. now rewrite <- !app_assoc.
Qed.

Lemma UnquoteString_enclose (x : gostring) :
  ~ In dquote x -> ~ In backslash x ->
  UnquoteString (enclose x) = (x, None).
Proof.
  intros Hd Hb. unfold UnquoteString, urun, enclose.
  change ([dquote] ++ x ++ [dquote]) with (dquote :: (x ++ [dquote])).
  change (uscan_from unq_init (dquote :: (x ++ [dquote])))
    with (uscan_from (mkUnq [] true false) (x ++ [dquote])).
  rewrite uscan_from_app.
  rewrite (uscan_from_plain x (mkUnq [] true false) eq_refl Hd Hb).
  reflexivity.
Qed.

(** On runes: fields between double quotes pass [Fields] unchanged and
    are unquoted to what they were. *)
Lemma Fields_UnquoteStrings_enclose (fs : list gostring) (sep : rune) :
  sep <> backslash -> sep <> dquote ->
  Forall (fun x => ~ In dquote x /\ ~ In backslash x) fs ->
  Fields (Join (map enclose fs) [sep]) sep = (Some (map enclose fs), None) /\
  UnquoteStrings (map enclose fs) = (Some fs, None).
Proof.
  intros Hsb Hsd Hall. split.
  - rewrite (Fields_joined sep enclose enclose
               (fun x => ~ In dquote x /\ ~ In backslash x) Hsb).
    + rewrite trim_last_nonempty; [reflexivity|].
      apply Forall_forall. intros y Hy. apply in_map_iff in Hy as (x & <- & _).
      discriminate.
    + intros x b f [Hd Hb]. now apply scan_enclose.
    + exact Hall.
  - unfold UnquoteStrings. rewrite UnquoteStrings_from_ok.
    + cbn [app]. f_equal. f_equal. rewrite map_map.
      rewrite <- (map_id fs) at 2. apply map_ext_in.
      intros x Hx. rewrite Forall_forall in Hall.
      destruct (Hall x Hx) as [Hd Hb]. now rewrite UnquoteString_enclose.
    + apply Forall_forall. intros y Hy. apply in_map_iff in Hy as (x & <- & Hx).
      rewrite Forall_forall in Hall. destruct (Hall x Hx) as [Hd Hb].
      now rewrite UnquoteString_enclose.
Qed.

Lemma finish_some (st : scan) (fs : list gostring) (e : option error) :
  finish st = (Some fs, e) ->
  isEscaped st = false /\ e = None /\
  fs = match sb st with
       | [] => fields st
       | _ :: _ => fields st ++ [sb st]
       end.
Proof.
  unfold finish. intros H.
  destruct (isEscaped st); [discriminate|].
  destruct (balance st <? 0); [discriminate|].
  destruct (negb (balance st =? 0)); [discriminate|].
  destruct (inSingle st); [discriminate|].
  destruct (inDouble st); [discriminate|].
  injection H as <- <-. auto.
Qed.

Lemma unescape_from_length (s : gostring) : forall esc,
  (List.length (unescape_from esc s) <= List.length s)%nat.
Proof.
  induction s as [|r s IH]; intros esc; cbn; [lia|].
  destruct esc; [cbn; specialize (IH false); lia|].
  destruct (r =? backslash); cbn; [specialize (IH true) | specialize (IH false)];
    lia.
Qed.

Lemma concat_sep_length (sep : rune) (l : list gostring) :
  (List.length l
   <= List.length (List.concat (map (fun f => f ++ [sep]) l)))%nat.
Proof.
  induction l as [|x l IH]; cbn; [lia|].
  rewrite !length_app. cbn. lia.
Qed.

(** X4.  A successful [Fields] returns no more than it read: the fields
    joined by the separator are no longer than the input, and there are
    no more fields than the input has runes. *)
Theorem Fields_size_bound (s : gostring) (sep : rune) (fs : list gostring) :
  Fields s sep = (Some fs, None) ->
  (List.length (Join fs [sep]) <= List.length s)%nat /\
  (List.length fs <= List.length s)%nat.
Proof.
  intros H. unfold Fields in H. apply finish_some in H as (_ & _ & ->).
  pose proof (unescape_from_length s false) as Hlen.
  assert (Hflat : flat sep (run sep s) = unescape_from false s)
    by (unfold run; rewrite scan_from_flat; reflexivity).
  rewrite <- Hflat in Hlen. unfold flat in Hlen.
  rewrite length_app in Hlen.
  pose proof (concat_sep_length sep (fields (run sep s))) as Hn.
  destruct (sb (run sep s)) as [|c b] eqn:Esb.
  - split; [|cbn in Hlen; lia].
    destruct (fields (run sep s)) as [|f l] eqn:Ef; [cbn; lia|].
    rewrite (concat_sep_Join [sep] (f :: l)) in Hlen by discriminate.
    rewrite length_app in Hlen. lia.
  - split.
    + rewrite Join_snoc, length_app. lia.
    + rewrite length_app. cbn in *. lia.
Qed.

Lemma Fields_size_bound_witness :
  (List.length (Join [runes "a,b"; runes "c"] [comma])
   <= List.length (runes "a\,b,c,"))%nat /\
  (List.length [runes "a,b"; runes "c"] <= List.length (runes "a\,b,c,"))%nat.
Proof.
  apply (Fields_size_bound (runes "a\,b,c,") comma). reflexivity.
Defined.

(** X5.  The paren counter moves by at most one per rune: after any
    prefix of a string shorter than [2 ^ 63] runes its absolute value is
    at most the length of the prefix, so the 64-bit counter never wraps.
    It may be negative. *)
Theorem Fields_counter_bound (sep : rune) (p q : gostring) :
  Z.of_nat (List.length (p ++ q)) < 2 ^ 63 ->
  Z.abs (balance (run sep p)) <= Z.of_nat (List.length p).
Proof.
  intros H. rewrite length_app in H.
  apply (scan_from_balance_bound sep p scan_init). cbn [balance scan_init]. lia.
Qed.

Lemma Fields_counter_bound_witness :
  Z.abs (balance (run comma (runes "))"))) <= Z.of_nat (List.length (runes "))")).
Proof.
  apply (Fields_counter_bound comma (runes "))") (runes "((")).
  cbn. lia.
Defined.

(** ** Further properties of [UnquoteString] and [UnquoteStrings] *)

Lemma uscan_quoted_body (s : gostring) : forall o,
  uscan_from (mkUnq o true false)
    (flat_map (fun r => if (r =? dquote) || (r =? backslash)
                        then [backslash; r] else [r]) s)
  = ok (mkUnq (o ++ s) true false).
Proof.
  induction s as [|r s IH]; intros o.
  - cbn. now rewrite app_nil_r.
  - cbn [flat_map]. rewrite uscan_from_app.
    destruct ((r =? dquote) || (r =? backslash)) eqn:E.
    + cbn [uscan_from]. unfold ustep at 1. cbn [escape out inQuote].
      change (backslash =? backslash) with true. cbn [negb bind ok].
      unfold ustep at 1. cbn [escape out inQuote]. rewrite E.
      cbn [bind ok]. rewrite IH, <- app_assoc. reflexivity.
    + apply orb_false_iff in E as [Ed Eb].
      cbn [uscan_from]. unfold ustep at 1.
      cbn [escape out inQuote]. rewrite Eb, Ed.
      cbn [bind ok]. rewrite IH, <- app_assoc. reflexivity.
Qed.

(** On runes: unquoting undoes quoting. *)
Lemma UnquoteString_quote_runes (s : gostring) :
  UnquoteString (quote s) = (s, None).
Proof.
  unfold UnquoteString, urun, quote.
  match goal with
  | |- context [ [dquote] ++ ?body ++ [dquote] ] =>
      change (uscan_from unq_init ([dquote] ++ body ++ [dquote]))
        with (uscan_from (mkUnq [] true false) (body ++ [dquote]))
  end.
  rewrite uscan_from_app, uscan_quoted_body. reflexivity.
Qed.

Lemma ustep_prepend (o : gostring) (st : unq) (r : rune) :
  ustep (prepend o st) r = st' <- ustep st r ;; ok (prepend o st').
Proof.
  unfold ustep, prepend. cbn [escape inQuote out].
  destruct (escape st).
  - destruct ((r =? dquote) || (r =? backslash)); cbn;
      now rewrite <- ?app_assoc.
  - destruct (r =? backslash).
    + destruct (inQuote st); reflexivity.
    + destruct (r =? dquote); cbn; now rewrite <- ?app_assoc.
Qed.

Lemma uscan_from_prepend (o s : gostring) : forall st,
  uscan_from (prepend o st) s
  = st' <- uscan_from st s ;; ok (prepend o st').
Proof.
  induction s as [|r s IH]; intros st; [reflexivity|].
  cbn [uscan_from]. rewrite ustep_prepend.
  destruct (ustep st r) as [e|st1]; [reflexivity|]. cbn [bind ok]. apply IH.
Qed.

Lemma UnquoteString_ok_inv (s x : gostring) :
  UnquoteString s = (x, None) -> urun s = ok (mkUnq x false false).
Proof.
  unfold UnquoteString. destruct (urun s) as [e|st]; [discriminate|].
  destruct st as [o q e]. cbn [escape inQuote out].
  destruct e; [discriminate|]. destruct q; [discriminate|].
  intros H. injection H as <-. reflexivity.
Qed.

(** On runes: two texts that unquote without error unquote together to
    the two results. *)
Lemma UnquoteString_app_runes (a b x y : gostring) :
  UnquoteString a = (x, None) -> UnquoteString b = (y, None) ->
  UnquoteString (a ++ b) = (x ++ y, None).
Proof.
  intros Ha Hb. apply UnquoteString_ok_inv in Ha, Hb.
  unfold UnquoteString, urun in *. rewrite uscan_from_app, Ha.
  cbn [bind ok].
  assert (E : mkUnq x false false = prepend x unq_init)
    by (unfold prepend; cbn; now rewrite app_nil_r).
  rewrite E, uscan_from_prepend, Hb. reflexivity.
Qed.

Lemma uscan_no_backslash (s : gostring) : forall o q,
  ~ In backslash s ->
  uscan_from (mkUnq o q false) s
  = ok (mkUnq (o ++ filter (fun r => negb (r =? dquote)) s)
              (xorb q (negb (even_quotes s))) false).
Proof.
  induction s as [|r s IH]; intros o q Hb.
  - cbn. rewrite app_nil_r, xorb_false_r. reflexivity.
  - assert (Hrb : (r =? backslash) = false)
      by (apply Z.eqb_neq; intros ->; apply Hb; now left).
    assert (Hs : ~ In backslash s) by (intros H; apply Hb; now right).
    cbn [uscan_from filter even_quotes]. unfold ustep.
    cbn [escape out inQuote]. rewrite Hrb.
    destruct (r =? dquote); cbn [bind ok negb].
    + rewrite IH by assumption. f_equal. f_equal.
      destruct q, (even_quotes s); reflexivity.
    + rewrite IH by assumption. now rewrite <- app_assoc.
Qed.

(** X8.  On a string without backslash, [UnquoteString] deletes the
    double quotes and keeps every other rune when the number of double
    quotes is even, and fails with the unterminated-quote error when it
    is odd. *)
Theorem UnquoteString_no_backslash (s : gostring) :
  ~ In backslash s ->
  UnquoteString s
  = if even_quotes s
    then (filter (fun r => negb (r =? dquote)) s, None)
    else ([], Some err_unterminated).
Proof.
  intros Hb. unfold UnquoteString, urun, unq_init.
  rewrite uscan_no_backslash by assumption. unfold ok.
  cbn [escape inQuote out]. now destruct (even_quotes s).
Qed.

Lemma UnquoteString_no_backslash_witness :
  UnquoteString (enclose (runes "foo ") ++ runes "," ++ enclose (runes "bar"))
    = (runes "foo ,bar", None) /\
  UnquoteString (enclose (runes "foo") ++ [dquote])
    = ([], Some err_unterminated).
Proof.
  split.
  - rewrite UnquoteString_no_backslash; [reflexivity|].
    cbn. intros H. repeat destruct H as [H|H]; try discriminate H; exact H.
  - rewrite UnquoteString_no_backslash; [reflexivity|].
    cbn. intros H. repeat destruct H as [H|H]; try discriminate H; exact H.
Defined.

(** ** The generic helpers *)

Section Helpers.

Context {T : Type} `{Comparable T}.

Hypothesis equal_is_equality : equality.

Lemma equal_iff (x y : T) : equal x y = true <-> x = y.
Proof. apply equal_is_equality. Qed.

Lemma equal_refl (x : T) : equal x x = true.
Proof. now apply equal_iff. Qed.

Lemma equal_false (x y : T) : equal x y = false <-> x <> y.
Proof.
  split.
  - intros E ->. rewrite equal_refl in E. discriminate.
  - intros Hne. destruct (equal x y) eqn:E; [|reflexivity].
    apply equal_iff in E. contradiction.
Qed.

Lemma filter_mark (sn : T -> bool) (a : T) (l : list T) :
  filter (fun x => negb (Bag.mark sn a x)) l
  = filter (fun x => negb (sn x)) (filter (fun x => negb (equal x a)) l).
Proof.
  induction l as [|x l IH]; [reflexivity|]. cbn. unfold Bag.mark at 1.
  destruct (equal x a); cbn; [exact IH|].
  destruct (sn x); cbn; [exact IH | now rewrite IH].
Qed.

Lemma filter_seen (sn : T -> bool) (a : T) (l : list T) :
  sn a = true ->
  filter (fun x => negb (sn x)) (filter (fun x => negb (equal x a)) l)
  = filter (fun x => negb (sn x)) l.
Proof.
  intros Ha. induction l as [|x l IH]; [reflexivity|]. cbn.
  destruct (equal x a) eqn:E; cbn.
  - apply equal_iff in E. subst x. rewrite Ha. exact IH.
  - destruct (sn x); cbn; [exact IH | now rewrite IH].
Qed.

(** The loop of [Deduplicate] appends the first occurrences that are not
    yet seen. *)
Lemma dedup_from_uniq (l : list T) : forall st,
  Bag.result (Bag.dedup_from st l)
  = Bag.result st ++ filter (fun x => negb (Bag.seen st x)) (uniq l).
Proof.
  induction l as [|a l IH]; intros st.
  - cbn. now rewrite app_nil_r.
  - change (Bag.dedup_from st (a :: l))
      with (Bag.dedup_from (Bag.dedup_step st a) l).
    rewrite IH. unfold Bag.dedup_step. cbn [uniq filter].
    destruct (Bag.seen st a) eqn:Ha; cbn [negb Bag.result Bag.seen].
    + now rewrite filter_seen.
    + rewrite filter_mark, <- app_assoc. reflexivity.
Qed.

Lemma Deduplicate_uniq (s : slice T) :
  Bag.Deduplicate s = Some (uniq (elems s)).
Proof.
  unfold Bag.Deduplicate. destruct (elems s) as [|a l] eqn:E; [reflexivity|].
  rewrite dedup_from_uniq. cbn [Bag.result Bag.seen app negb]. f_equal.
  clear E. generalize (uniq (a :: l)). intros u.
  induction u as [|x u IH]; [reflexivity|]. cbn. now rewrite IH.
Qed.

Lemma uniq_In (l : list T) (x : T) : In x (uniq l) <-> In x l.
Proof.
  induction l as [|a l IH]; [reflexivity|]. cbn.
  rewrite filter_In, IH, negb_true_iff, equal_false.
  split.
  - intros [->|[Hin _]]; auto.
  - intros [->|Hin]; [now left|].
    destruct (equal x a) eqn:E.
    + apply equal_iff in E. now left.
    + apply equal_false in E. auto.
Qed.

Lemma uniq_NoDup (l : list T) : NoDup (uniq l).
Proof.
  induction l as [|a l IH]; [constructor|]. cbn. constructor.
  - rewrite filter_In, equal_refl. intros [_ E]. discriminate.
  - now apply NoDup_filter.
Qed.

Lemma uniq_id (l : list T) : NoDup l -> uniq l = l.
Proof.
  induction l as [|a l IH]; intros Hnd; [reflexivity|].
  inversion Hnd as [|? ? Ha Hl]; subst. cbn. rewrite (IH Hl). f_equal.
  apply forallb_filter_id. apply forallb_forall. intros x Hx.
  apply negb_true_iff, equal_false. intros ->. contradiction.
Qed.

Lemma uniq_length (l : list T) :
  (List.length (uniq l) <= List.length l)%nat.
Proof.
  induction l as [|a l IH]; cbn; [lia|].
  pose proof (filter_length_le (fun x => negb (equal x a)) (uniq l)). lia.
Qed.

(** X9.  On an element type on which [==] is equality, [Deduplicate]
    never returns nil; its result has no element twice, has exactly the
    elements of its argument, and is no longer. *)
Theorem Deduplicate_set (s : slice T) :
  exists r,
    Bag.Deduplicate s = Some r /\ NoDup r /\
    (forall x, In x r <-> In x (elems s)) /\
    (List.length r <= List.length (elems s))%nat.
Proof.
  exists (uniq (elems s)). split; [apply Deduplicate_uniq|].
  split; [apply uniq_NoDup|]. split; [apply uniq_In | apply uniq_length].
Qed.

(** X10.  On an element type on which [==] is equality, [Deduplicate]
    keeps the order of first occurrence: the first element of the
    argument comes first, followed by the deduplicated rest of the
    argument without that element. *)
Theorem Deduplicate_first_occurrence (a : T) (l : list T) :
  Bag.Deduplicate (Some (a :: l))
  = Some (a :: filter (fun x => negb (equal x a))
                      (elems (Bag.Deduplicate (Some l)))).
Proof.
  rewrite !Deduplicate_uniq. reflexivity.
Qed.

(** X11.  On an element type on which [==] is equality, [Deduplicate]
    is idempotent, and on an argument without duplicates it returns the
    elements unchanged. *)
Theorem Deduplicate_idempotent (s : slice T) :
  Bag.Deduplicate (Bag.Deduplicate s) = Bag.Deduplicate s /\
  (NoDup (elems s) -> Bag.Deduplicate s = Some (elems s)).
Proof.
  rewrite !Deduplicate_uniq. cbn [elems]. split.
  - f_equal. apply uniq_id, uniq_NoDup.
  - intros Hnd. f_equal. now apply uniq_id.
Qed.

Lemma In_spec (l : list T) (e : T) : Bag.In l e = true <-> In e l.
Proof.
  induction l as [|x l IH]; cbn; [split; [discriminate | contradiction]|].
  destruct (equal x e) eqn:E.
  - apply equal_iff in E. split; auto.
  - apply equal_false in E. rewrite IH. split; [auto|].
    intros [Hx|Hin]; [contradiction | exact Hin].
Qed.

(** X12.  On an element type on which [==] is equality, [In] reports
    exactly the elements of the slice, and the same ones before and after
    [Deduplicate]. *)
Theorem In_member (s : slice T) (e : T) :
  (Bag.In (elems s) e = true <-> In e (elems s)) /\
  Bag.In (elems (Bag.Deduplicate s)) e = Bag.In (elems s) e.
Proof.
  split; [apply In_spec|].
  rewrite Deduplicate_uniq. cbn [elems].
  destruct (Bag.In (elems s) e) eqn:E.
  - apply In_spec, uniq_In, In_spec, E.
  - destruct (Bag.In (uniq (elems s)) e) eqn:E'; [|reflexivity].
    apply (proj1 (In_spec _ _)) in E'. apply (proj1 (uniq_In _ _)) in E'.
    apply (proj2 (In_spec _ _)) in E'. congruence.
Qed.



End Helpers.

(** On runes, as on every integer type, [==] is equality. *)
Lemma equality_rune : @equality rune Comparable_rune.
Proof. intros x y. apply Z.eqb_eq. Qed.

Lemma Deduplicate_set_witness :
  exists r,
    Bag.Deduplicate (Some [1; 2; 2; 3; 1]) = Some r /\ NoDup r /\
    (forall x, In x r <-> In x [1; 2; 2; 3; 1]) /\
    (List.length r <= 5)%nat.
Proof. exact (Deduplicate_set equality_rune (Some [1; 2; 2; 3; 1])). Defined.

Lemma Deduplicate_first_occurrence_witness :
  Bag.Deduplicate (Some [2; 1; 2])
  = Some (2 :: filter (fun x => negb (equal x 2))
                      (elems (Bag.Deduplicate (Some [1; 2])))).
Proof. exact (Deduplicate_first_occurrence equality_rune 2 [1; 2]). Defined.

Lemma Deduplicate_idempotent_witness :
  Bag.Deduplicate (Some [1; 2; 3]) = Some [1; 2; 3].
Proof.
  apply (proj2 (Deduplicate_idempotent equality_rune (Some [1; 2; 3]))).
  repeat constructor; cbn; intros H;
    repeat destruct H as [H|H]; try discriminate H; exact H.
Defined.


Lemma In_member_witness :
  Bag.In (elems (Some [1; 2; 3])) 2 = true /\
  Bag.In (elems (Bag.Deduplicate (Some [1; 2; 2]))) 3
  = Bag.In (elems (Some [1; 2; 2])) 3.
Proof.
  split.
  - apply (proj1 (In_member equality_rune (Some [1; 2; 3]) 2)). cbn. auto.
  - apply (proj2 (In_member equality_rune (Some [1; 2; 2]) 3)).
Defined.

Example test_deduplicate :
  Bag.Deduplicate (Some [1; 2; 2; 3; 1]) = Some [1; 2; 3] /\
  Bag.Deduplicate (Some ([] : list rune)) = Some [] /\
  Bag.Deduplicate (None : slice rune) = Some [].
Proof. repeat split; reflexivity. Qed.

(** On a float type [==] is not equality, and the properties above do
    not hold: a NaN is never seen again, so every NaN is kept, and [In]
    does not find it. *)
Example test_deduplicate_nan :
  Bag.Deduplicate (Some [NaN; Num 1; NaN; Num 1]) = Some [NaN; Num 1; NaN] /\
  Bag.In [NaN] NaN = false.
Proof. split; reflexivity. Qed.

(** ** Strings as bytes: decoding what was encoded *)

Lemma decode_1 (b : Z) (t : bytestring) :
  b < 128 -> decode (b :: t) = b :: decode t.
Proof.
  intros H. cbn [decode]. apply Z.ltb_lt in H. now rewrite H.
Qed.

Lemma decode_2 (b0 b1 : Z) (t : bytestring) :
  194 <= b0 <= 223 -> 128 <= b1 <= 191 ->
  decode (b0 :: b1 :: t) = ((b0 - 192) * 64 + (b1 - 128)) :: decode t.
Proof.
  intros H0 H1. cbn [decode].
  assert (E0 : (b0 <? 128) = false) by (apply Z.ltb_ge; lia).
  assert (E1 : lead2 b0 && cont b1 = true)
    by (unfold lead2, cont; bool_true; lia).
  now rewrite E0, E1.
Qed.

Lemma decode_3 (b0 b1 b2 : Z) (t : bytestring) :
  224 <= b0 <= 239 -> lead3 b0 b1 = true -> 128 <= b2 <= 191 ->
  decode (b0 :: b1 :: b2 :: t)
  = ((b0 - 224) * 4096 + (b1 - 128) * 64 + (b2 - 128)) :: decode t.
Proof.
  intros H0 H1 H2. cbn [decode].
  assert (E0 : (b0 <? 128) = false) by (apply Z.ltb_ge; lia).
  assert (E1 : lead2 b0 = false).
  { unfold lead2. apply andb_false_iff. right. apply Z.leb_gt. lia. }
  assert (E2 : cont b2 = true) by (unfold cont; bool_true; lia).
  now rewrite E0, E1, H1, E2.
Qed.

Lemma decode_4 (b0 b1 b2 b3 : Z) (t : bytestring) :
  240 <= b0 <= 244 -> lead4 b0 b1 = true ->
  128 <= b2 <= 191 -> 128 <= b3 <= 191 ->
  decode (b0 :: b1 :: b2 :: b3 :: t)
  = ((b0 - 240) * 262144 + (b1 - 128) * 4096 + (b2 - 128) * 64 + (b3 - 128))
    :: decode t.
Proof.
  intros H0 H1 H2 H3. cbn [decode].
  assert (E0 : (b0 <? 128) = false) by (apply Z.ltb_ge; lia).
  assert (E1 : lead2 b0 = false).
  { unfold lead2. apply andb_false_iff. right. apply Z.leb_gt. lia. }
  assert (E2 : lead3 b0 b1 = false).
  { unfold lead3. rewrite !orb_false_iff, !andb_false_iff, !Z.eqb_neq,
      !Z.leb_gt. lia. }
  assert (E3 : cont b2 = true) by (unfold cont; bool_true; lia).
  assert (E4 : cont b3 = true) by (unfold cont; bool_true; lia).
  now rewrite E0, E1, E2, H1, E3, E4.
Qed.

Lemma decode_EncodeRune (r : rune) (t : bytestring) :
  valid_rune r = true -> decode (EncodeRune r ++ t) = r :: decode t.
Proof.
  intros Hv. unfold EncodeRune. rewrite Hv. cbn [negb].
  unfold valid_rune in Hv. revert Hv. bool_true. intros Hv.
  destruct (Z.ltb_spec r 128) as [H1|H1].
  { apply decode_1. lia. }
  destruct (Z.ltb_spec r 2048) as [H2|H2].
  { cbn [app]. rewrite decode_2.
    - f_equal. Z.div_mod_to_equations. lia.
    - Z.div_mod_to_equations. lia.
    - Z.div_mod_to_equations. lia. }
  destruct (Z.ltb_spec r 65536) as [H3|H3].
  { cbn [app]. rewrite decode_3.
    - f_equal. Z.div_mod_to_equations. lia.
    - Z.div_mod_to_equations. lia.
    - unfold lead3, cont. bool_true. Z.div_mod_to_equations. lia.
    - Z.div_mod_to_equations. lia. }
  cbn [app]. rewrite decode_4.
  - f_equal. Z.div_mod_to_equations. lia.
  - Z.div_mod_to_equations. lia.
  - unfold lead4, cont. bool_true. Z.div_mod_to_equations. lia.
  - Z.div_mod_to_equations. lia.
  - Z.div_mod_to_equations. lia.
Qed.
Lemma plain_sep_inv (sep : rune) :
  plain_sep sep = true ->
  (sep =? dquote) = false /\ (sep =? squote) = false /\
  (sep =? lparen) = false /\ (sep =? rparen) = false.
Proof.
  unfold plain_sep. intros H. apply negb_true_iff in H.
  repeat (apply orb_false_iff in H; destruct H as [H ?]). auto.
Qed.

Lemma step_nest_step (sep r : rune) (depth : nat) (q : quoting) (esc : bool)
    (b : gostring) (f : list gostring) (depth' : nat) (q' : quoting)
    (esc' : bool) :
  plain_sep sep = true ->
  Z.of_nat depth + 1 < 2 ^ 63 ->
  nest_step depth q esc r = Some (depth', q', esc') ->
  exists b' f', step sep (scan_of b f depth q esc) r
                = scan_of b' f' depth' q' esc'.
Proof.
  intros Hsep Hbound Hnext.
  apply plain_sep_inv in Hsep as (Hd & Hs & Hl & Hp).
  unfold nest_step in Hnext. unfold step, scan_of, splits.
  cbn [isEscaped balance inSingle inDouble].
  destruct esc.
  { injection Hnext as <- <- <-. eexists _, _. reflexivity. }
  destruct (r =? backslash) eqn:Eb.
  { injection Hnext as <- <- <-. eexists _, _. reflexivity. }
  destruct (r =? sep) eqn:Esep.
  { apply Z.eqb_eq in Esep. subst r.
    rewrite Hd, Hs, Hl, Hp in Hnext.
    destruct q; injection Hnext as <- <- <-;
      cbn [negb andb]; rewrite ?andb_false_r, ?andb_true_r.
    - destruct (Z.of_nat depth =? 0); eexists _, _; reflexivity.
    - eexists _, _; reflexivity.
    - eexists _, _; reflexivity. }
  destruct q;
    destruct (Z.eqb_spec r dquote), (Z.eqb_spec r squote),
      (Z.eqb_spec r lparen), (Z.eqb_spec r rparen);
    try (exfalso; unfold dquote, squote, lparen, rparen in *; lia);
    try (destruct depth as [|d]; [discriminate|]);
    injection Hnext as <- <- <-;
    cbn [negb andb];
    rewrite ?wrap_int_id by lia;
    try replace (Z.of_nat depth + 1) with (Z.of_nat (S depth)) by lia;
    try replace (Z.of_nat (S d) - 1) with (Z.of_nat d) by lia;
    eexists _, _; reflexivity.
Qed.

Lemma scan_well_nested (sep : rune) (s : gostring) :
  plain_sep sep = true ->
  forall depth q esc b f,
  Z.of_nat depth + Z.of_nat (List.length s) < 2 ^ 63 ->
  well_nested depth q esc s = true ->
  exists b' f',
    scan_from sep (scan_of b f depth q esc) s = scan_of b' f' 0 Unquoted false.
Proof.
  intros Hsep. induction s as [|r s IH]; intros depth q esc b f Hlen Hwf.
  - cbn in Hwf. apply andb_prop in Hwf as [Hwf Hq].
    apply andb_prop in Hwf as [He Hd].
    apply negb_true_iff in He. apply Nat.eqb_eq in Hd. subst.
    destruct q; try discriminate. eexists _, _. reflexivity.
  - cbn [well_nested] in Hwf. cbn [List.length] in Hlen.
    destruct (nest_step depth q esc r) as [[[d' q'] e']|] eqn:Hn;
      [|discriminate].
    destruct (step_nest_step sep r depth q esc b f d' q' e' Hsep
                ltac:(lia) Hn) as (b1 & f1 & Hstep).
    change (scan_from sep (scan_of b f depth q esc) (r :: s))
      with (scan_from sep (step sep (scan_of b f depth q esc) r) s).
    rewrite Hstep. apply IH; [|exact Hwf].
    assert (Hd' : Z.of_nat d' <= Z.of_nat depth + 1).
    { unfold nest_step in Hn. destruct esc; [injection Hn; lia|].
      destruct (r =? backslash); [injection Hn; lia|].
      destruct q; destruct (r =? dquote), (r =? squote), (r =? lparen),
        (r =? rparen); try (destruct depth; [discriminate|]);
        injection Hn; lia. }
    lia.
Qed.

Lemma well_formed_balanced (sep : rune) (s : gostring) :
  plain_sep sep = true ->
  Z.of_nat (List.length s) < 2 ^ 63 ->
  well_formed s = true -> balanced sep s.
Proof.
  intros Hsep Hlen Hwf.
  destruct (scan_well_nested sep s Hsep 0%nat Unquoted false [] []
              ltac:(cbn [Z.of_nat]; lia) Hwf) as (b & f & E).
  unfold balanced, run. change scan_init with (scan_of [] [] 0 Unquoted false).
  rewrite E. repeat split.
Qed.

Lemma encode_app (a b : gostring) : encode (a ++ b) = encode a ++ encode b.
Proof. unfold encode. apply flat_map_app. Qed.

Lemma decode_encode_app (rs : gostring) (t : bytestring) :
  forallb valid_rune rs = true -> decode (encode rs ++ t) = rs ++ decode t.
Proof.
  induction rs as [|r rs IH]; intros Hv; [reflexivity|].
  cbn in Hv. apply andb_prop in Hv as [Hr Hrs].
  cbn [encode flat_map]. rewrite <- app_assoc, decode_EncodeRune by assumption.
  cbn [app]. f_equal. apply IH, Hrs.
Qed.

Lemma decode_encode (rs : gostring) :
  forallb valid_rune rs = true -> decode (encode rs) = rs.
Proof.
  intros Hv. rewrite <- (app_nil_r (encode rs)), decode_encode_app by assumption.
  apply app_nil_r.
Qed.

Lemma encode_Join (fs : list gostring) (sep : rune) :
  encode (Join fs [sep]) = JoinBytes (map encode fs) (EncodeRune sep).
Proof.
  induction fs as [|f fs IH]; [reflexivity|].
  destruct fs as [|g fs]; [reflexivity|].
  change (Join (f :: g :: fs) [sep]) with (f ++ [sep] ++ Join (g :: fs) [sep]).
  change (JoinBytes (map encode (f :: g :: fs)) (EncodeRune sep))
    with (encode f ++ EncodeRune sep
          ++ JoinBytes (map encode (g :: fs)) (EncodeRune sep)).
  rewrite !encode_app, IH. cbn [encode flat_map]. now rewrite app_nil_r.
Qed.

Lemma encode_ascii_in (c : Z) (rs : gostring) :
  0 <= c < 128 -> In c rs -> In c (encode rs).
Proof.
  intros Hc Hin. unfold encode. apply in_flat_map. exists c. split; [exact Hin|].
  unfold EncodeRune, valid_rune.
  assert (E1 : (0 <=? c) && (c <? 55296) = true)
    by (apply andb_true_iff; rewrite Z.leb_le, Z.ltb_lt; lia).
  assert (E2 : (c <? 128) = true) by (apply Z.ltb_lt; lia).
  rewrite E1, E2. cbn. now left.
Qed.

(** One step of [range]: a non-empty prefix is consumed and gives one
    rune, which is below 128 only when it is the byte consumed. *)
Lemma decode_step (b0 : Z) (t0 : bytestring) :
  exists r pre t,
    b0 :: t0 = pre ++ t /\ pre <> [] /\
    decode (b0 :: t0) = r :: decode t /\
    (r < 128 -> In r pre).
Proof.
  assert (Herr : exists r pre t,
             b0 :: t0 = pre ++ t /\ pre <> [] /\
             RuneError :: decode t0 = r :: decode t /\ (r < 128 -> In r pre)).
  { exists RuneError, [b0], t0. repeat split; [discriminate|].
    unfold RuneError. lia. }
  cbn [decode]. destruct (b0 <? 128) eqn:E0.
  { exists b0, [b0], t0. repeat split; [discriminate|]. intros _. now left. }
  destruct t0 as [|b1 t1]; [exact Herr|].
  destruct (lead2 b0 && cont b1) eqn:E1.
  { exists ((b0 - 192) * 64 + (b1 - 128)), [b0; b1], t1.
    repeat split; [discriminate|].
    unfold lead2, cont in E1. revert E1. bool_true. lia. }
  destruct t1 as [|b2 t2]; [exact Herr|].
  destruct (lead3 b0 b1 && cont b2) eqn:E2.
  { exists ((b0 - 224) * 4096 + (b1 - 128) * 64 + (b2 - 128)), [b0; b1; b2], t2.
    repeat split; [discriminate|].
    unfold lead3, cont in E2. revert E2. bool_true. lia. }
  destruct t2 as [|b3 t3]; [exact Herr|].
  destruct (lead4 b0 b1 && cont b2 && cont b3) eqn:E3; [|exact Herr].
  exists ((b0 - 240) * 262144 + (b1 - 128) * 4096 + (b2 - 128) * 64
          + (b3 - 128)), [b0; b1; b2; b3], t3.
  repeat split; [discriminate|].
  unfold lead4, cont in E3. revert E3. bool_true. lia.
Qed.

Lemma decode_facts (n : nat) : forall s,
  (List.length s <= n)%nat ->
  (List.length (decode s) <= List.length s)%nat /\
  (forall c, c < 128 -> In c (decode s) -> In c s).
Proof.
  induction n as [|n IH]; intros s Hn.
  - destruct s; [cbn; split; [lia | auto] | cbn in Hn; lia].
  - destruct s as [|b0 t0]; [cbn; split; [lia | auto]|].
    destruct (decode_step b0 t0) as (r & pre & t & Hs & Hpre & Hd & Hr).
    rewrite Hd, Hs.
    assert (Hlen : (List.length t <= n)%nat).
    { apply (f_equal (@List.length Z)) in Hs. rewrite length_app in Hs.
      cbn [List.length] in Hs, Hn. destruct pre; [contradiction|].
      cbn [List.length] in Hs. lia. }
    destruct (IH t Hlen) as [IHl IHin]. split.
    + rewrite length_app. cbn [List.length].
      destruct pre; [contradiction|]. cbn [List.length]. lia.
    + intros c Hc [<-|Hin]; apply in_or_app; [left; auto | right; auto].
Qed.

Lemma decode_length (s : bytestring) :
  (List.length (decode s) <= List.length s)%nat.
Proof. apply (decode_facts (List.length s) s). lia. Qed.

Lemma decode_ascii_in (c : Z) (s : bytestring) :
  c < 128 -> In c (decode s) -> In c s.
Proof. apply (decode_facts (List.length s) s). lia. Qed.

Lemma valid_Join (fs : list gostring) (sep : rune) :
  valid_rune sep = true -> forallb (forallb valid_rune) fs = true ->
  forallb valid_rune (Join fs [sep]) = true.
Proof.
  intros Hsep. induction fs as [|f fs IH]; intros Hfs; [reflexivity|].
  cbn [forallb] in Hfs. apply andb_prop in Hfs as [Hf Hfs].
  destruct fs as [|g fs]; [exact Hf|].
  change (Join (f :: g :: fs) [sep]) with (f ++ [sep] ++ Join (g :: fs) [sep]).
  rewrite !forallb_app, Hf, (IH Hfs). cbn. now rewrite Hsep.
Qed.

Lemma valid_escape_all (f : gostring) :
  forallb valid_rune f = true -> forallb valid_rune (escape_all f) = true.
Proof.
  induction f as [|r f IH]; intros Hf; [reflexivity|].
  cbn in Hf. apply andb_prop in Hf as [Hr Hf].
  change (escape_all (r :: f)) with (backslash :: r :: escape_all f).
  cbn [forallb]. rewrite Hr, (IH Hf). reflexivity.
Qed.

(** ** The functions on Go strings: properties *)

(** C1 (as amended).  Let the input be read as [range] reads it, with no
    dangling escape, no unclosed quote and balanced parentheses, and let
    the separator be neither a quote nor a parenthesis.  Then [Fields]
    returns no error, and the fields joined by the separator are the
    runes read, less the escaping backslashes and the delimiter that
    closed the last field.  When the input is valid UTF-8 without
    backslash, the fields joined by the separator are the input itself,
    up to that last delimiter. *)
Theorem Fields_well_formed_join (s : bytestring) (sep : rune) :
  well_formed (decode s) = true ->
  plain_sep sep = true ->
  Z.of_nat (List.length s) < 2 ^ 63 ->
  exists fs,
    Go.Fields s sep = (Some (map encode fs), None) /\
    join_recovers (unescape (decode s)) sep fs /\
    (valid_utf8 s -> ~ In 92 s ->
     JoinBytes (map encode fs) (EncodeRune sep) = s \/
     JoinBytes (map encode fs) (EncodeRune sep) ++ EncodeRune sep = s).
Proof.
  intros Hwf Hsep Hlen.
  assert (Hb : balanced sep (decode s)).
  { apply well_formed_balanced; [exact Hsep| |exact Hwf].
    pose proof (decode_length s). lia. }
  destruct (balanced_join (decode s) sep Hb) as (fs & HF & Hrec & Hplain).
  exists fs. split; [unfold Go.Fields; now rewrite HF|].
  split; [exact Hrec|].
  intros (rs & Hv & ->) Hnb. rewrite decode_encode in Hplain by assumption.
  assert (Hrs : ~ In backslash rs).
  { intros Hin. apply Hnb. apply encode_ascii_in; [|exact Hin].
    unfold backslash. lia. }
  destruct (Hplain Hrs) as [E|E]; [left | right].
  - now rewrite <- encode_Join, E.
  - rewrite <- E, encode_app, encode_Join. cbn [encode flat_map].
    now rewrite app_nil_r.
Qed.

Lemma Fields_well_formed_join_witness :
  exists fs,
    Go.Fields (bytes "a,(b,c),'d,e',") comma = (Some (map encode fs), None) /\
    (JoinBytes (map encode fs) (EncodeRune comma) = bytes "a,(b,c),'d,e',"
     \/ JoinBytes (map encode fs) (EncodeRune comma) ++ EncodeRune comma
        = bytes "a,(b,c),'d,e',").
Proof.
  destruct (Fields_well_formed_join (bytes "a,(b,c),'d,e',") comma)
    as (fs & HF & _ & Hj).
  - reflexivity.
  - reflexivity.
  - cbn. lia.
  - exists fs. split; [exact HF|]. apply Hj.
    + exists (runes "a,(b,c),'d,e',"). split; reflexivity.
    + cbn. intros H. repeat destruct H as [H|H]; try discriminate H. exact H.
Defined.

(** C1 (as stated) fails in three places.  The escaped comma of the test
    corpus is balanced and [Fields] succeeds, but the backslash is in no
    field.  With a quote or a parenthesis as separator a balanced input
    is refused: the separator closes a field, or is copied, instead of
    opening a quotation or being counted, and a parenthesis is left
    unmatched.  On an input that is not
    valid UTF-8 the byte that starts no encoding comes back as U+FFFD. *)
Lemma Fields_join_loses_escape :
  (well_formed (decode (bytes "a\,b")) = true /\
   Go.Fields (bytes "a\,b") comma = (Some [bytes "a,b"], None) /\
   In 92 (bytes "a\,b") /\
   ~ In 92 (JoinBytes [bytes "a,b"] (EncodeRune comma))) /\
  (well_formed (decode [34; 40; 34]) = true /\
   Go.Fields [34; 40; 34] dquote = (None, Some err_unbalanced_parens) /\
   well_formed (decode [39; 40; 39]) = true /\
   Go.Fields [39; 40; 39] squote = (None, Some err_unbalanced_parens) /\
   well_formed (decode [40; 41]) = true /\
   Go.Fields [40; 41] lparen = (None, Some err_too_many_closing) /\
   Go.Fields [40; 41] rparen = (None, Some err_unbalanced_parens)) /\
  (well_formed (decode [97; 255; 44; 98]) = true /\
   ~ In 92 [97; 255; 44; 98] /\
   Go.Fields [97; 255; 44; 98] comma
     = (Some [[97; 239; 191; 189]; [98]], None) /\
   JoinBytes [[97; 239; 191; 189]; [98]] (EncodeRune comma)
     <> [97; 255; 44; 98] /\
   JoinBytes [[97; 239; 191; 189]; [98]] (EncodeRune comma)
     ++ EncodeRune comma <> [97; 255; 44; 98]).
Proof.
  split; [|split].
  - split; [reflexivity|]. split; [reflexivity|]. split; [cbn; tauto|].
    cbn. intros H. repeat destruct H as [H|H]; try discriminate H. exact H.
  - repeat split; reflexivity.
  - split; [reflexivity|]. split.
    + cbn. intros H. repeat destruct H as [H|H]; try discriminate H. exact H.
    + split; [reflexivity|]. split; discriminate.
Qed.

(** A closing parenthesis before its opening one is not balanced, though
    [Fields] accepts it (C2). *)
Example well_formed_rejects_dip :
  well_formed (runes ")(") = false /\
  well_formed (runes "a,(b,(c,d),e),f") = true /\
  well_formed (runes "a,'b,c") = false /\
  well_formed (runes "a,b\") = false.
Proof. repeat split; reflexivity. Qed.

(** C10 (as amended).  On an input with neither a double quote nor a
    backslash, [UnquoteString] returns no error and the input as [range]
    reads it, every byte that starts no encoding replaced by U+FFFD; on
    such an input that is valid UTF-8 it returns the input unchanged. *)
Theorem UnquoteString_plain_identity (s : bytestring) :
  ~ In 34 s -> ~ In 92 s ->
  Go.UnquoteString s = (encode (decode s), None) /\
  (valid_utf8 s -> Go.UnquoteString s = (s, None)).
Proof.
  intros Hd Hb.
  assert (H : Go.UnquoteString s = (encode (decode s), None)).
  { unfold Go.UnquoteString. rewrite UnquoteString_plain; [reflexivity| |].
    - intros Hin. apply Hd. apply decode_ascii_in; [|exact Hin].
      unfold dquote. lia.
    - intros Hin. apply Hb. apply decode_ascii_in; [|exact Hin].
      unfold backslash. lia. }
  split; [exact H|].
  intros (rs & Hv & ->). rewrite H. now rewrite decode_encode.
Qed.

Lemma UnquoteString_plain_identity_witness :
  Go.UnquoteString (bytes "foo, (bar) 'baz'")
  = (bytes "foo, (bar) 'baz'", None).
Proof.
  apply (UnquoteString_plain_identity (bytes "foo, (bar) 'baz'")).
  - cbn. intros H. repeat destruct H as [H|H]; try discriminate H. exact H.
  - cbn. intros H. repeat destruct H as [H|H]; try discriminate H. exact H.
  - exists (runes "foo, (bar) 'baz'"). split; reflexivity.
Defined.

(** C10 (as stated) fails on a string that is not valid UTF-8: the one
    byte [ff] is neither a double quote nor a backslash, and comes back
    as the three bytes of U+FFFD. *)
Lemma UnquoteString_invalid_byte :
  ~ In 34 [255] /\ ~ In 92 [255] /\
  Go.UnquoteString [255] = ([239; 191; 189], None) /\
  fst (Go.UnquoteString [255]) <> [255].
Proof.
  split; [|split; [|split]].
  - cbn. intros [H|H]; [discriminate H | exact H].
  - cbn. intros [H|H]; [discriminate H | exact H].
  - reflexivity.
  - discriminate.
Qed.

(** X1.  When the runes that [range] yields from the input include no
    backslash, no quote and no parenthesis, [Fields] returns no error,
    and its fields are the encodings of the runs of runes between the
    occurrences of the separator rune, less a last empty one. *)
Theorem Fields_ordinary_split (s : bytestring) (sep : rune) :
  forallb ordinary (decode s) = true ->
  Go.Fields s sep
  = (Some (map encode (trim_last (split_from [] (decode s) sep))), None).
Proof.
  intros Hs. unfold Go.Fields. now rewrite Fields_ordinary.
Qed.

Lemma Fields_ordinary_split_witness :
  Go.Fields [32; 97; 255; 44; 195; 169; 44; 44] comma
  = (Some [[32; 97; 239; 191; 189]; [195; 169]; []], None).
Proof.
  apply (Fields_ordinary_split [32; 97; 255; 44; 195; 169; 44; 44] comma).
  reflexivity.
Defined.

(** X2.  Escaping is a round trip on valid UTF-8.  Take fields that are
    sequences of Unicode scalar values and a separator that is one too
    and is not the backslash; write every rune of every field behind a
    backslash and join the fields by the separator.  From that string
    [Fields] returns the fields, whatever runes they hold, less a last
    empty one, and no error. *)
Theorem Fields_escape_all_roundtrip (fs : list gostring) (sep : rune) :
  sep <> backslash -> valid_rune sep = true ->
  forallb (forallb valid_rune) fs = true ->
  Go.Fields (JoinBytes (map (fun f => encode (escape_all f)) fs)
                       (EncodeRune sep)) sep
  = (Some (map encode (trim_last fs)), None).
Proof.
  intros Hsb Hsv Hfs.
  rewrite <- (map_map escape_all encode), <- encode_Join.
  unfold Go.Fields. rewrite decode_encode.
  - now rewrite Fields_escape_all.
  - apply valid_Join; [exact Hsv|].
    rewrite forallb_forall in *. intros x Hx.
    apply in_map_iff in Hx as (f & <- & Hf). apply valid_escape_all, Hfs, Hf.
Qed.

Lemma Fields_escape_all_roundtrip_witness :
  Go.Fields (JoinBytes (map (fun f => encode (escape_all f))
                            [runes "a,(b"; [233; 92]; runes ")"])
                       (EncodeRune comma)) comma
  = (Some (map encode [runes "a,(b"; [233; 92]; runes ")"]), None).
Proof.
  apply (Fields_escape_all_roundtrip
           [runes "a,(b"; [233; 92]; runes ")"] comma);
    [discriminate | reflexivity | reflexivity].
Defined.

Lemma Go_UnquoteStrings_from_ok (elems : list bytestring) : forall unquoted,
  Forall (fun e => snd (Go.UnquoteString e) = None) elems ->
  Go.UnquoteStrings_from unquoted elems
  = (Some (unquoted ++ map (fun e => fst (Go.UnquoteString e)) elems), None).
Proof.
  induction elems as [|e elems IH]; intros unquoted Hall; cbn.
  - now rewrite app_nil_r.
  - inversion Hall as [|? ? He Hrest]; subst.
    destruct (Go.UnquoteString e) as [s err] eqn:Hu. cbn in He. subst err.
    rewrite IH by assumption. cbn. now rewrite <- app_assoc.
Qed.

Lemma valid_enclose (f : gostring) :
  forallb valid_rune f = true -> forallb valid_rune (enclose f) = true.
Proof.
  intros Hf. unfold enclose. rewrite !forallb_app, Hf. reflexivity.
Qed.

Lemma Go_UnquoteString_enclose (f : gostring) :
  forallb valid_rune f = true -> ~ In dquote f -> ~ In backslash f ->
  Go.UnquoteString (encode (enclose f)) = (encode f, None).
Proof.
  intros Hv Hd Hb. unfold Go.UnquoteString.
  rewrite decode_encode by now apply valid_enclose.
  now rewrite UnquoteString_enclose.
Qed.

(** X3.  Quoting protects a field through both functions, on valid
    UTF-8.  Take fields that are sequences of Unicode scalar values
    without double quote and backslash, and a separator that is a scalar
    value other than these two; put each field between double quotes
    and join them by the separator.  From that string [Fields] returns
    the quoted fields, the separators, single quotes and parentheses
    inside them untouched, and [UnquoteStrings] on that result returns
    the fields. *)
Theorem Fields_UnquoteStrings_roundtrip (fs : list gostring) (sep : rune) :
  sep <> backslash -> sep <> dquote -> valid_rune sep = true ->
  Forall (fun x => forallb valid_rune x = true /\
                   ~ In dquote x /\ ~ In backslash x) fs ->
  Go.Fields (JoinBytes (map (fun f => encode (enclose f)) fs)
                       (EncodeRune sep)) sep
    = (Some (map (fun f => encode (enclose f)) fs), None) /\
  Go.UnquoteStrings (map (fun f => encode (enclose f)) fs)
    = (Some (map encode fs), None).
Proof.
  intros Hsb Hsd Hsv Hall.
  assert (Hq : Forall (fun x => ~ In dquote x /\ ~ In backslash x) fs).
  { eapply Forall_impl; [|exact Hall]. cbn. tauto. }
  split.
  - rewrite <- (map_map enclose encode), <- encode_Join.
    unfold Go.Fields. rewrite decode_encode.
    + now rewrite (proj1 (Fields_UnquoteStrings_enclose fs sep Hsb Hsd Hq)).
    + apply valid_Join; [exact Hsv|].
      rewrite forallb_forall. intros x Hx.
      apply in_map_iff in Hx as (f & <- & Hf). apply valid_enclose.
      rewrite Forall_forall in Hall. now apply Hall.
  - unfold Go.UnquoteStrings. rewrite Go_UnquoteStrings_from_ok.
    + cbn [app]. f_equal. f_equal. rewrite map_map.
      apply map_ext_in. intros f Hf. rewrite Forall_forall in Hall.
      destruct (Hall f Hf) as (Hv & Hd & Hb).
      now rewrite Go_UnquoteString_enclose.
    + apply Forall_forall. intros y Hy.
      apply in_map_iff in Hy as (f & <- & Hf). rewrite Forall_forall in Hall.
      destruct (Hall f Hf) as (Hv & Hd & Hb).
      now rewrite Go_UnquoteString_enclose.
Qed.

Lemma Fields_UnquoteStrings_roundtrip_witness :
  Go.Fields (JoinBytes (map (fun f => encode (enclose f))
                            [runes "a,b"; [40; 233]; []])
                       (EncodeRune comma)) comma
    = (Some (map (fun f => encode (enclose f))
                 [runes "a,b"; [40; 233]; []]), None) /\
  Go.UnquoteStrings (map (fun f => encode (enclose f))
                         [runes "a,b"; [40; 233]; []])
    = (Some (map encode [runes "a,b"; [40; 233]; []]), None).
Proof.
  apply (Fields_UnquoteStrings_roundtrip
           [runes "a,b"; [40; 233]; []] comma);
    [discriminate | discriminate | reflexivity |].
  repeat constructor; cbn; intros H;
    repeat destruct H as [H|H]; try discriminate H; exact H.
Defined.

Lemma valid_quote (rs : gostring) :
  forallb valid_rune rs = true -> forallb valid_rune (quote rs) = true.
Proof.
  intros Hv. unfold quote. rewrite !forallb_app. cbn [forallb].
  change (valid_rune dquote) with true. cbn [andb]. rewrite andb_true_r.
  induction rs as [|r rs IH]; [reflexivity|].
  cbn in Hv. apply andb_prop in Hv as [Hr Hrs].
  cbn [flat_map]. rewrite forallb_app, (IH Hrs), andb_true_r.
  destruct ((r =? dquote) || (r =? backslash)); cbn; now rewrite Hr.
Qed.

(** X6.  Unquoting undoes quoting, on valid UTF-8: the encoding of any
    sequence of Unicode scalar values, written between double quotes
    with a backslash before each of its double quotes and backslashes,
    is returned unchanged and without error. *)
Theorem UnquoteString_quote (rs : gostring) :
  forallb valid_rune rs = true ->
  Go.UnquoteString (encode (quote rs)) = (encode rs, None).
Proof.
  intros Hv. unfold Go.UnquoteString.
  rewrite decode_encode by now apply valid_quote.
  now rewrite UnquoteString_quote_runes.
Qed.

Lemma UnquoteString_quote_witness :
  Go.UnquoteString (encode (quote [97; 34; 233; 92; 98]))
  = (encode [97; 34; 233; 92; 98], None).
Proof.
  apply (UnquoteString_quote [97; 34; 233; 92; 98]). reflexivity.
Defined.

Lemma Go_UnquoteString_ok_inv (s x : bytestring) :
  Go.UnquoteString s = (x, None) ->
  exists o, UnquoteString (decode s) = (o, None) /\ x = encode o.
Proof.
  unfold Go.UnquoteString. destruct (UnquoteString (decode s)) as [o err].
  intros H. injection H as <- ->. now exists o.
Qed.

(** X7.  [UnquoteString] distributes over concatenation when the first
    string is valid UTF-8: if two strings unquote without error, so does
    their concatenation, to the concatenation of the results. *)
Theorem UnquoteString_app (a b x y : bytestring) :
  valid_utf8 a ->
  Go.UnquoteString a = (x, None) -> Go.UnquoteString b = (y, None) ->
  Go.UnquoteString (a ++ b) = (x ++ y, None).
Proof.
  intros (ra & Hv & ->) Ha Hb.
  apply Go_UnquoteString_ok_inv in Ha as (oa & Ha & ->).
  apply Go_UnquoteString_ok_inv in Hb as (ob & Hb & ->).
  rewrite decode_encode in Ha by assumption.
  unfold Go.UnquoteString. rewrite decode_encode_app by assumption.
  rewrite (UnquoteString_app_runes ra (decode b) oa ob Ha Hb).
  now rewrite encode_app.
Qed.

Lemma UnquoteString_app_witness :
  Go.UnquoteString (encode (enclose [102; 233]) ++ [44; 34; 255; 34])
  = (encode [102; 233] ++ [44; 239; 191; 189], None).
Proof.
  apply (UnquoteString_app (encode (enclose [102; 233])) [44; 34; 255; 34]).
  - exists (enclose [102; 233]). split; reflexivity.
  - reflexivity.
  - reflexivity.
Defined.
